(** * SuiteCRM client: case conversion, module builder and flattening

    A shallow embedding of the pure core of the TypeScript client:
    - [infrastructure/utils/caseConverter]: [camelToSnake], [snakeToCamel],
      [objectToSnakeCase], [objectToCamelCase];
    - [domain/abstracts/SuiteCrmModule]: [SuiteCrmRelationship],
      [SuiteCrmModule], [withLink];
    - [infrastructure/services/SuiteCrmService]: the argument record built by
      [getEntryListRaw] and [flattenEntryList]; then the session held by
      the service ([getToken], [call], [getEntryListRaw], [setEntry],
      [clearToken], [getUserInfo]) against a remote end given as a
      function, [parseNameValueList] and the base URL of the constructor;
    - [domain/types/suitecrm]: [isApiErrorResponse].

    JavaScript strings are modelled as [string]; the two regular expressions
    of the converter only look at ASCII letters and the underscore, so every
    other code unit is copied through. *)

From Stdlib Require Import Ascii String DecimalString.
From stdpp Require Import base strings list gmap fin_maps.

Local Open Scope string_scope.

(** ** Case converter *)

Module CaseConverter.

(** The character class [[A-Z]]. *)
Definition is_upper (c : ascii) : bool :=
  let n := nat_of_ascii c in (65 <=? n)%nat && (n <=? 90)%nat.

(** The character class [[a-z]]. *)
Definition is_lower (c : ascii) : bool :=
  let n := nat_of_ascii c in (97 <=? n)%nat && (n <=? 122)%nat.

(** The character class [[0-9]]. *)
Definition is_digit (c : ascii) : bool :=
  let n := nat_of_ascii c in (48 <=? n)%nat && (n <=? 57)%nat.

Definition underscore : ascii := "_"%char.

(** [letter.toLowerCase()] on a letter matched by [[A-Z]]. *)
Definition toLowerCase (c : ascii) : ascii :=
  if is_upper c then ascii_of_nat (nat_of_ascii c + 32) else c.

(** [letter.toUpperCase()] on a letter matched by [[a-z]]. *)
Definition toUpperCase (c : ascii) : ascii :=
  if is_lower c then ascii_of_nat (nat_of_ascii c - 32) else c.

(** [str.replace(/[A-Z]/g, letter => `_${letter.toLowerCase()}`)] *)
Fixpoint camelToSnake (str : string) : string :=
  match str with
  | EmptyString => EmptyString
  | String c rest =>
      if is_upper c
      then String underscore (String (toLowerCase c) (camelToSnake rest))
      else String c (camelToSnake rest)
  end.

(** [str.replace(/_([a-z])/g, (_, letter) => letter.toUpperCase())]:
    the scan goes left to right and resumes after each match, so the
    letter consumed by a match is never looked at again. *)
Fixpoint snakeToCamel (str : string) : string :=
  match str with
  | EmptyString => EmptyString
  | String c rest =>
      if Ascii.eqb c underscore then
        match rest with
        | String d rest' =>
            if is_lower d
            then String (toUpperCase d) (snakeToCamel rest')
            else String c (snakeToCamel rest)
        | EmptyString => String c EmptyString
        end
      else String c (snakeToCamel rest)
  end.

(** Characters of a string, as a list. *)
Fixpoint chars (s : string) : list ascii :=
  match s with
  | EmptyString => []
  | String c rest => c :: chars rest
  end.

(** Identifier in the internal convention: lowercase letters, digits and
    uppercase letters marking word boundaries, the first character not
    an uppercase letter. *)
Definition ident_char (c : ascii) : bool :=
  is_lower c || is_digit c || is_upper c.

Definition camel_identifier (s : string) : bool :=
  forallb ident_char (chars s) &&
  match s with
  | EmptyString => true
  | String c _ => negb (is_upper c)
  end.

End CaseConverter.

Import CaseConverter.

(** ** JavaScript values

    Field values are [unknown] in the source.  An object is represented by
    its [Object.entries] sequence together with what [value.constructor]
    resolves to along its prototype chain. *)

Inductive constructor_kind := CtorObject | CtorOther.

#[warnings="-register-all"]
Inductive jsval :=
| JUndefined
| JNull
| JBool (b : bool)
| JNumber (n : Z)
| JString (s : string)
| JArray (items : list jsval)
| JObject (proto_ctor : constructor_kind) (props : list (string * jsval)).

Module Js.

(** [result[key] = value] on an object given by its entries: an existing
    property keeps its position, a new one goes last. This is what the
    assignment does for every key but [__proto__], which it hands to the
    setter of [Object.prototype] instead; the general statements about
    the deep conversions are made for records none of whose keys converts
    to [__proto__] ([Shapes.no_proto_keys]). *)
Fixpoint obj_set (key : string) (value : jsval)
    (props : list (string * jsval)) : list (string * jsval) :=
  match props with
  | [] => [(key, value)]
  | (k, v) :: rest =>
      if String.eqb key k then (key, value) :: rest
      else (k, v) :: obj_set key value rest
  end.

Fixpoint obj_get (key : string) (props : list (string * jsval))
    : option jsval :=
  match props with
  | [] => None
  | (k, v) :: rest => if String.eqb key k then Some v else obj_get key rest
  end.

(** The property name of array index [i]. *)
Definition index_key (i : nat) : string :=
  NilZero.string_of_uint (Nat.to_uint i).

(** [typeof item === 'object' && item !== null] *)
Definition is_nonnull_object (item : jsval) : bool :=
  match item with
  | JArray _ | JObject _ _ => true
  | _ => false
  end.

(** [Array.isArray(value)] *)
Definition isArray (value : jsval) : bool :=
  match value with JArray _ => true | _ => false end.

(** [typeof value === 'object' && value.constructor === Object], for a
    value that is neither null nor an array.  An own property named
    [constructor] shadows the inherited one, and no [jsval] is the
    function [Object] itself. *)
Definition constructor_is_Object (value : jsval) : bool :=
  match value with
  | JObject CtorObject props =>
      match obj_get "constructor" props with
      | None => true
      | Some _ => false
      end
  | _ => false
  end.

End Js.

Module DeepConverter.
Import Js.

Section Walk.
(** The scalar key conversion: [camelToSnake] or [snakeToCamel]. The
    two deep functions of the source differ in nothing else. *)
Variable convertKey : string -> string.

(** The body shared by [objectToSnakeCase] and [objectToCamelCase]: a
    fresh [{}] filled by one assignment per entry of
    [Object.entries(obj)]. The function is only ever applied to a
    non-null object (the typed argument, an array item that passed
    [typeof item === 'object' && item !== null], or a value that
    passed the [constructor === Object] test); [Object.entries] of an
    array lists its elements under their index keys. *)
Fixpoint convertObject (obj : jsval) : jsval :=
  let convertValue := fun value : jsval =>
    match value with
    | JNull | JUndefined => value
    | JArray items =>
        JArray (map (fun item =>
                       if is_nonnull_object item then convertObject item
                       else item) items)
    | JObject _ _ =>
        if constructor_is_Object value then convertObject value
        else value
    | _ => value
    end in
  JObject CtorObject
    match obj with
    | JObject _ props =>
        (fix loop (entries : list (string * jsval))
             (result : list (string * jsval)) :=
           match entries with
           | [] => result
           | (key, value) :: rest =>
               loop rest (obj_set (convertKey key) (convertValue value) result)
           end) props []
    | JArray items =>
        (fix loop (elements : list jsval) (i : nat)
             (result : list (string * jsval)) :=
           match elements with
           | [] => result
           | value :: rest =>
               loop rest (S i)
                 (obj_set (convertKey (index_key i)) (convertValue value) result)
           end) items 0%nat []
    | _ => []
    end.

(** What one property value is replaced by: the four branches in the body
    of [convertObject], named for the statements below. *)
Definition convertProperty (value : jsval) : jsval :=
  match value with
  | JNull | JUndefined => value
  | JArray items =>
      JArray (map (fun item =>
                     if is_nonnull_object item then convertObject item
                     else item) items)
  | JObject _ _ =>
      if constructor_is_Object value then convertObject value else value
  | _ => value
  end.
End Walk.

Definition objectToSnakeCase : jsval -> jsval := convertObject camelToSnake.
Definition objectToCamelCase : jsval -> jsval := convertObject snakeToCamel.

Section Reference.
Variable convertKey : string -> string.

(** The deep walk as the specification words it, for comparison with
    [convertObject]: a plain record is descended into, a sequence is
    mapped element by element with the same walk, and any other value is
    a leaf handed back unchanged. *)
Fixpoint walk_reference (value : jsval) : jsval :=
  match value with
  | JArray items => JArray (map walk_reference items)
  | JObject _ props =>
      if constructor_is_Object value then
        JObject CtorObject
          ((fix loop (entries : list (string * jsval))
                (result : list (string * jsval)) :=
              match entries with
              | [] => result
              | (key, v) :: rest =>
                  loop rest (obj_set (convertKey key) (walk_reference v) result)
              end) props [])
      else value
  | _ => value
  end.
End Reference.

(** Values in which every item of every sequence that is walked is a
    primitive, [null], [undefined] or a plain record: no sequence and no
    other object sits directly inside a sequence. *)
Fixpoint sequence_items_plain (value : jsval) : bool :=
  match value with
  | JArray items =>
      forallb (fun item =>
                 match item with
                 | JArray _ => false
                 | JObject _ _ =>
                     constructor_is_Object item && sequence_items_plain item
                 | _ => true
                 end) items
  | JObject _ props =>
      negb (constructor_is_Object value) ||
      forallb (fun kv => sequence_items_plain (snd kv)) props
  | _ => true
  end.

End DeepConverter.

(** ** Module descriptors and the relationship builder

    The [links] object of a module is a JavaScript object held by
    reference: the constructor stores the reference it is given. Link
    objects therefore live in a store, and every operation threads it. *)

Module Domain.

Definition loc := positive.

Record SuiteCrmModule := {
  name : string;
  links : loc
}.

Record SuiteCrmRelationship := {
  linkName : string;
  relatedModule : SuiteCrmModule
}.

Record LinkQuery := {
  lq_linkName : string;
  lq_module : SuiteCrmModule;
  selectedFields : list string
}.

(** The store of link objects. *)
Abbreviation store := (gmap loc (gmap string SuiteCrmRelationship)).

(** The own enumerable properties of the object at [l]. *)
Definition read (h : store) (l : loc) : gmap string SuiteCrmRelationship :=
  default ∅ (h !! l).

(** [new SuiteCrmRelationship(linkName, relatedModule)] *)
Definition new_SuiteCrmRelationship (linkName : string)
    (relatedModule : SuiteCrmModule) : SuiteCrmRelationship :=
  {| linkName := linkName; relatedModule := relatedModule |}.


(** [new SuiteCrmModule(name, existingLinks = {})]: [this.links] is the
    reference passed in, or a newly allocated empty object. *)
Definition new_SuiteCrmModule (h : store) (name : string)
    (existingLinks : option loc) : store * SuiteCrmModule :=
  match existingLinks with
  | Some l => (h, {| name := name; links := l |})
  | None =>
      let l := fresh (dom h) in
      (<[l := ∅]> h, {| name := name; links := l |})
  end.

(** [this.withLink(linkName, relatedModule)]: the object literal
    [{ ...this.links, [camelKey]: newRelationship }] is a new object
    holding the own properties of [this.links], then [camelKey]. *)
Definition withLink (h : store) (this : SuiteCrmModule) (linkName : string)
    (relatedModule : SuiteCrmModule) : store * SuiteCrmModule :=
  let newRelationship := new_SuiteCrmRelationship linkName relatedModule in
  let camelKey := snakeToCamel linkName in
  let newLinks := <[camelKey := newRelationship]> (read h (links this)) in
  let l := fresh (dom h) in
  new_SuiteCrmModule (<[l := newLinks]> h) (name this) (Some l).

(** [this.defineRelationship(linkName, relatedModule)] *)
Definition defineRelationship (this : SuiteCrmModule) (linkName : string)
    (relatedModule : SuiteCrmModule) : SuiteCrmRelationship :=
  new_SuiteCrmRelationship linkName relatedModule.

(** How a call completes. *)
Inductive completion (A : Type) :=
| Returns (result : A)
| Throws (message : string).
Global Arguments Returns {A} result.
Global Arguments Throws {A} message.

(** The completion of a call of [withLink]: its body has no [throw], and
    the two constructors and [snakeToCamel] it calls have none either. *)
Definition withLink_completion (h : store) (this : SuiteCrmModule)
    (linkName : string) (relatedModule : SuiteCrmModule)
    : completion (store * SuiteCrmModule) :=
  Returns (withLink h this linkName relatedModule).

End Domain.

(** ** The service: request arguments and flattening *)

Module GetEntryListOptions.
Record t := {
  module : Domain.SuiteCrmModule;
  query : string;
  orderBy : option string;
  offset : option Z;
  selectedFields : option (list string);
  linkNameToFieldsArray : option (list Domain.LinkQuery);
  maxResults : option Z;
  deleted : option bool
}.
End GetEntryListOptions.

Module GetEntryListArgs.
Record link_fields := {
  name : string;
  value : list string
}.

(** The object [entryArgs]; [call] adds [session] to it. *)
Record t := {
  module_name : string;
  query : string;
  order_by : string;
  offset : Z;
  select_fields : list string;
  link_name_to_fields_array : list link_fields;
  max_results : Z;
  deleted : Z
}.
End GetEntryListArgs.

Module Service.

Record NameValue := {
  nv_name : string;
  value : jsval
}.

(** A [Record<string, NameValue>] as [Object.entries] lists it; an entry
    may hold [null] or [undefined], which the code reads with [?.]. *)
Abbreviation name_values := (list (string * option NameValue)).

Record LinkRecord := {
  link_value : option name_values
}.

Record LinkList := {
  name : string;
  records : option (list LinkRecord)
}.

Record RelationshipEntry := {
  link_list : option (list LinkList)
}.

Record Entry := {
  name_value_list : option name_values
}.

(** [relationship_list[i]] may be a hole or [null]: the code tests it. *)
Record EntryListResponse := {
  entry_list : option (list Entry);
  relationship_list : option (list (option RelationshipEntry))
}.

(** One flat record: [Record<string, unknown>]. *)
Abbreviation flat_record := (gmap string jsval).

(** [x || []], [x || {}] on an optional array or object. *)
Definition or_empty {A} (x : option (list A)) : list A := default [] x.

(** [valueObj?.value] *)
Definition value_of (valueObj : option NameValue) : jsval :=
  match valueObj with
  | Some nv => value nv
  | None => JUndefined
  end.

(** [`${linkName}_${fieldName}`] *)
Definition concatenatedKey (linkName fieldName : string) : string :=
  linkName ++ "_" ++ fieldName.

(** [for (const [key, valueObj] of Object.entries(nameValueList))
      flatEntry[snakeToCamel(key)] = valueObj?.value] *)
Definition flatten_name_values (nameValueList : name_values)
    (flatEntry : flat_record) : flat_record :=
  foldl (λ flatEntry kv, <[snakeToCamel kv.1 := value_of kv.2]> flatEntry)
        flatEntry nameValueList.

(** [for (const [fieldName, fieldValue] of Object.entries(linkValue))
      flatEntry[snakeToCamel(`${linkName}_${fieldName}`)] = fieldValue?.value] *)
Definition flatten_link_value (linkName : string) (linkValue : name_values)
    (flatEntry : flat_record) : flat_record :=
  foldl (λ flatEntry kv,
           <[snakeToCamel (concatenatedKey linkName kv.1) := value_of kv.2]>
             flatEntry)
        flatEntry linkValue.

(** [for (const record of records) { const linkValue = record.link_value || {} ... }] *)
Definition flatten_records (linkName : string) (records : list LinkRecord)
    (flatEntry : flat_record) : flat_record :=
  foldl (λ flatEntry record,
           flatten_link_value linkName (or_empty (link_value record)) flatEntry)
        flatEntry records.

(** [for (const link of linkList) { const linkName = link.name;
      const records = link.records || [] ... }] *)
Definition flatten_link_list (linkList : list LinkList)
    (flatEntry : flat_record) : flat_record :=
  foldl (λ flatEntry link,
           flatten_records (name link) (or_empty (records link)) flatEntry)
        flatEntry linkList.

(** The body of the outer loop at index [i]. *)
Definition flatten_entry
    (relationshipList : list (option RelationshipEntry))
    (i : nat) (entry : Entry) : flat_record :=
  let nameValueList := or_empty (name_value_list entry) in
  let flatEntry := flatten_name_values nameValueList ∅ in
  match relationshipList !! i with
  | Some (Some relationship) =>
      flatten_link_list (or_empty (link_list relationship)) flatEntry
  | _ => flatEntry
  end.

Definition flattenEntryList (result : EntryListResponse) : list flat_record :=
  let entryList := or_empty (entry_list result) in
  let relationshipList := or_empty (relationship_list result) in
  imap (flatten_entry relationshipList) entryList.

(** Some field of [linkValue] is assigned to the flat key [K]. *)
Definition link_value_hits (linkName : string) (linkValue : name_values)
    (K : string) : Prop :=
  ∃ kv, kv ∈ linkValue ∧ snakeToCamel (concatenatedKey linkName kv.1) = K.

(** Some sub-record of [records] has a field assigned to [K]. *)
Definition records_hit (linkName : string) (records : list LinkRecord)
    (K : string) : Prop :=
  ∃ record, record ∈ records ∧
    link_value_hits linkName (or_empty (link_value record)) K.

(** Some link group of [linkList] has a field assigned to [K]. *)
Definition link_list_hits (linkList : list LinkList) (K : string) : Prop :=
  ∃ link, link ∈ linkList ∧
    records_hit (name link) (or_empty (records link)) K.

(** Some own field of [nameValueList] is assigned to [K]. *)
Definition name_values_hit (nameValueList : name_values) (K : string) : Prop :=
  ∃ kv, kv ∈ nameValueList ∧ snakeToCamel kv.1 = K.

(** The relationship expansion at index [i], if there is one, has a field
    assigned to [K]. *)
Definition relationship_hits
    (relationshipList : list (option RelationshipEntry)) (i : nat)
    (K : string) : Prop :=
  match relationshipList !! i with
  | Some (Some relationship) =>
      link_list_hits (or_empty (link_list relationship)) K
  | _ => False
  end.

(** The object [entryArgs] built by [getEntryListRaw]. *)
Definition entryArgs (options : GetEntryListOptions.t) : GetEntryListArgs.t :=
  {| GetEntryListArgs.module_name :=
       Domain.name (GetEntryListOptions.module options);
     GetEntryListArgs.query := GetEntryListOptions.query options;
     GetEntryListArgs.order_by :=
       match GetEntryListOptions.orderBy options with
       | Some orderBy =>
           if String.eqb orderBy "" then "" else camelToSnake orderBy
       | None => ""
       end;
     GetEntryListArgs.offset :=
       match GetEntryListOptions.offset options with
       | Some offset => offset
       | None => 0%Z
       end;
     GetEntryListArgs.select_fields :=
       match GetEntryListOptions.selectedFields options with
       | Some fields => map camelToSnake fields
       | None => []
       end;
     GetEntryListArgs.link_name_to_fields_array :=
       match GetEntryListOptions.linkNameToFieldsArray options with
       | Some items =>
           map (λ item,
                  {| GetEntryListArgs.name := Domain.lq_linkName item;
                     GetEntryListArgs.value :=
                       map camelToSnake (Domain.selectedFields item) |})
               items
       | None => []
       end;
     GetEntryListArgs.max_results :=
       match GetEntryListOptions.maxResults options with
       | Some maxResults => maxResults
       | None => 20%Z
       end;
     GetEntryListArgs.deleted :=
       match GetEntryListOptions.deleted options with
       | Some true => 1%Z
       | _ => 0%Z
       end |}.

Section GetEntryList.
(** The response of the remote [get_entry_list] call for given arguments. *)
Variable call_get_entry_list : GetEntryListArgs.t -> EntryListResponse.

End GetEntryList.

End Service.

(** ** Vocabulary of the naming conventions *)

Module Naming.

(** No character of [s] is in [[A-Z]]. *)
Definition no_upper (s : string) : bool :=
  forallb (fun c => negb (is_upper c)) (chars s).

(** No character of [s] is an underscore. *)
Definition no_underscore (s : string) : bool :=
  forallb (fun c => negb (Ascii.eqb c underscore)) (chars s).

(** [s] begins with a character in [[a-z]]. *)
Definition starts_lower (s : string) : bool :=
  match s with
  | String c _ => is_lower c
  | EmptyString => false
  end.

(** Somewhere in [s] an underscore is followed by a character in [[a-z]]:
    the pattern [/_([a-z])/] has a match. *)
Fixpoint snake_boundary (s : string) : bool :=
  match s with
  | EmptyString => false
  | String c rest =>
      (Ascii.eqb c underscore && starts_lower rest) || snake_boundary rest
  end.

End Naming.

(** ** Setting an entry: the name-value list *)

Module SetEntry.
Import Service.

(** [object[key] = a] on an object given by its entries, for entries of
    any type and a key other than [__proto__]: an existing property keeps
    its position, a new one goes last. *)
Fixpoint entries_set {A : Type} (key : string) (a : A)
    (entries : list (string * A)) : list (string * A) :=
  match entries with
  | [] => [(key, a)]
  | (k, b) :: rest =>
      if String.eqb key k then (key, a) :: rest
      else (k, b) :: entries_set key a rest
  end.

(** [parseNameValueList]: one assignment
    [parsedNameValueList[key] = { name: key, value: value }] per entry of
    [Object.entries(nameValueList)]. For the key [__proto__] the
    assignment goes to the setter of [Object.prototype]: the object
    assigned becomes the prototype of [parsedNameValueList], which gets
    no property by it. That prototype is a plain object with the two
    writable properties [name] and [value], so the later assignments
    still create their properties, and the list is serialised by its own
    properties only. *)
Definition parseNameValueList (nameValueList : list (string * jsval))
    : list (string * NameValue) :=
  foldl (fun parsedNameValueList kv =>
           if String.eqb (fst kv) "__proto__" then parsedNameValueList
           else
             entries_set (fst kv) {| nv_name := fst kv; value := snd kv |}
               parsedNameValueList)
        [] nameValueList.

(** The [name_value_list] argument [setEntry] hands to [call]:
    [this.parseNameValueList(objectToSnakeCase(options.values))]. *)
Definition setEntry_name_value_list (values : jsval)
    : list (string * NameValue) :=
  match DeepConverter.objectToSnakeCase values with
  | JObject _ snakeCaseValues => parseNameValueList snakeCaseValues
  | _ => []
  end.

(** The primary entry of a response that gives a stored name-value list
    back as it was sent. *)
Definition stored_entry (nameValueList : list (string * NameValue)) : Entry :=
  {| name_value_list :=
       Some (map (fun kv => (fst kv, Some (snd kv))) nameValueList) |}.

End SetEntry.

(** ** Shapes of values for the deep conversions *)

Module Shapes.
Import Js.

(** A primitive, [null] or [undefined]. *)
Definition is_scalar (value : jsval) : bool :=
  match value with
  | JArray _ | JObject _ _ => false
  | _ => true
  end.

(** A record in the internal convention, all the way down: a plain
    object whose keys are distinct and free of underscores, whose
    sequences hold only scalars and such records, and whose plain-record
    properties are such records. A property that is an object but no
    plain record is a leaf and may be anything. *)
Fixpoint camel_record (v : jsval) : bool :=
  match v with
  | JObject CtorObject props =>
      bool_decide (NoDup (map fst props)) &&
      forallb (fun kv =>
                 let '(k, x) := kv in
                 Naming.no_underscore k &&
                 match x with
                 | JArray items =>
                     forallb (fun item =>
                                match item with
                                | JArray _ => false
                                | JObject _ _ => camel_record item
                                | _ => true
                                end) items
                 | JObject _ _ =>
                     negb (constructor_is_Object x) || camel_record x
                 | _ => true
                 end) props
  | _ => false
  end.

(** No key of [v], at any depth, is converted by [convertKey] to
    [__proto__]: on such values every assignment of the deep conversions
    creates or updates a property. *)
Fixpoint no_proto_keys (convertKey : string -> string) (v : jsval) : bool :=
  match v with
  | JArray items => forallb (no_proto_keys convertKey) items
  | JObject _ props =>
      forallb (fun kv =>
                 let '(k, x) := kv in
                 negb (String.eqb (convertKey k) "__proto__") &&
                 no_proto_keys convertKey x) props
  | _ => true
  end.

(** The condition [camel_record] puts on one property value. *)
Definition camel_property (x : jsval) : bool :=
  match x with
  | JArray items =>
      forallb (fun item =>
                 match item with
                 | JArray _ => false
                 | JObject _ _ => camel_record item
                 | _ => true
                 end) items
  | JObject _ _ => negb (constructor_is_Object x) || camel_record x
  | _ => true
  end.

End Shapes.

(** ** The session: token, login, authenticated calls

    The service holds a token and the user information, both [null]
    until a login succeeds. Its operations run one at a time; each threads
    the service state and may end by throwing. The remote end is a
    function from the requests sent so far, the current one last, to what
    comes back. Response bodies are JSON-decoded: their objects are plain
    and have no property but their own. The Error objects the code throws
    are kept by kind, with the parts their messages are built from. *)

Module Session.
Import Js.

(** [!!v], the truthiness of a value. *)
Definition truthy (v : jsval) : bool :=
  match v with
  | JUndefined | JNull => false
  | JBool b => b
  | JNumber n => negb (Z.eqb n 0)
  | JString s => negb (String.eqb s "")
  | JArray _ | JObject _ _ => true
  end.

(** [v || d] *)
Definition or_else (v d : jsval) : jsval := if truthy v then v else d.

(** [v === null || v === undefined] *)
Definition is_nullish (v : jsval) : bool :=
  match v with
  | JUndefined | JNull => true
  | _ => false
  end.

(** [v.key] for a non-nullish [v] and one of the property names the
    service reads ([id], [name], [description], [name_value_list],
    [user_name], [user_is_admin], [user_id], [value]): an object gives
    its own property, anything else has none. *)
Definition get (v : jsval) (key : string) : jsval :=
  match v with
  | JObject _ props => default JUndefined (obj_get key props)
  | _ => JUndefined
  end.

(** ['key' in v] for an object [v] and such a name. *)
Definition has (v : jsval) (key : string) : bool :=
  match v with
  | JObject _ props =>
      match obj_get key props with Some _ => true | None => false end
  | _ => false
  end.

(** [isApiErrorResponse] *)
Definition isApiErrorResponse (response : jsval) : bool :=
  is_nonnull_object response &&
  has response "name" &&
  has response "description" &&
  match get response "name" with
  | JString name => negb (String.eqb name "Success")
  | _ => false
  end.

(** [{ ...a, ...b }] on entries: the properties of [b] assigned onto
    those of [a]. *)
Definition spread (a b : list (string * jsval)) : list (string * jsval) :=
  foldl (fun acc kv => obj_set (fst kv) (snd kv) acc) a b.

Record UserInfo := {
  id : jsval;
  username : jsval;
  isAdmin : jsval
}.

(** What is thrown. *)
Inductive exn :=
| RequestError (message responseData : string)
    (* new Error(`Error en solicitud a SuiteCRM: ${message} ${responseData}`) *)
| TypeError
    (* a property read on null or undefined *)
| TokenError (errorMessage : jsval)
    (* new Error(`Error al obtener token de autenticación: ${errorMessage}`) *)
| ApiError (name : jsval) (description : jsval)
    (* new Error(`API Error: ${name} - ${description}`) *)
| AuthenticationError (message : string) (status : Z)
    (* new SuiteCrmAuthenticationError(message, status) *)
| NoUserInfo.
    (* new Error('No hay información del usuario autenticado') *)

Record request_record := {
  method : string;
  args : list (string * jsval)
}.

(** What a POST comes back with: the response body, or a rejection with
    the message of the transport error and the body it carried, already
    serialised (empty when there is none). *)
Inductive reply :=
| Reply (data : jsval)
| Failure (message responseData : string).

(** The two private fields of the service, and the requests it has made
    so far, oldest first: [sent] is no field of the class, it records
    what went over the wire. *)
Record service := {
  token : jsval;
  userInfo : option UserInfo;
  sent : list request_record
}.

(** The state a new service starts in. *)
Definition new_service : service :=
  {| token := JNull; userInfo := None; sent := [] |}.

Inductive outcome (A : Type) :=
| Ok (a : A)
| Exn (e : exn).
Global Arguments Ok {A} a.
Global Arguments Exn {A} e.

Definition M (A : Type) : Type := service -> outcome A * service.

Definition ret {A} (a : A) : M A := fun s => (Ok a, s).

Definition throw {A} (e : exn) : M A := fun s => (Exn e, s).

Definition bind {A B} (m : M A) (k : A -> M B) : M B :=
  fun s =>
    match m s with
    | (Ok a, s') => k a s'
    | (Exn e, s') => (Exn e, s')
    end.

(** [try { m } catch (error) { handler(error) }] *)
Definition try_catch {A} (m : M A) (handler : exn -> M A) : M A :=
  fun s =>
    match m s with
    | (Ok a, s') => (Ok a, s')
    | (Exn e, s') => handler e s'
    end.

Definition lift {A} (o : outcome A) : M A := fun s => (o, s).

Definition read_token : M jsval := fun s => (Ok (token s), s).

Definition read_userInfo : M (option UserInfo) := fun s => (Ok (userInfo s), s).

Definition write_token (t : jsval) : M unit :=
  fun s => (Ok tt, {| token := t; userInfo := userInfo s; sent := sent s |}).

Definition write_userInfo (u : option UserInfo) : M unit :=
  fun s => (Ok tt, {| token := token s; userInfo := u; sent := sent s |}).

Notation "x <- m ;; k" := (bind m (fun x => k))
  (at level 100, m at next level, right associativity).
Notation "m ;;; k" := (bind m (fun _ => k))
  (at level 100, right associativity).

(** [clearToken] *)
Definition clearToken : M unit :=
  write_token JNull ;;; write_userInfo None.

(** [getUserInfo] *)
Definition getUserInfo : M UserInfo :=
  u <- read_userInfo ;;
  match u with
  | Some info => ret info
  | None => throw NoUserInfo
  end.

(** [response.name_value_list?.key.value]: nothing is read when
    [name_value_list] is nullish; otherwise [.value] is read from
    whatever [.key] gives, which throws when that is nullish. *)
Definition read_login_value (response : jsval) (key : string)
    : outcome jsval :=
  let nameValueList := get response "name_value_list" in
  if is_nullish nameValueList then Ok JUndefined
  else
    let entry := get nameValueList key in
    if is_nullish entry then Exn TypeError else Ok (get entry "value").

(** The token and the user information are set together or not at all. *)
Definition consistent (s : service) : Prop :=
  (token s = JNull /\ userInfo s = None) \/
  (truthy (token s) = true /\ userInfo s <> None).

Section Remote.
(** The configuration, the hash and the trimming of strings, and the
    remote end. *)
Variable config_username config_password config_applicationName : string.
Variable md5Hash : string -> string.
Variable trim : string -> string.
Variable remote : list request_record -> reply.

(** [request]: one POST; the body of the response, or an Error made of
    the transport error. *)
Definition request (method : string) (args : list (string * jsval))
    : M jsval :=
  fun s =>
    let s' := {| token := token s; userInfo := userInfo s;
                 sent := sent s ++ [ {| method := method; args := args |} ] |} in
    match remote (sent s') with
    | Reply data => (Ok data, s')
    | Failure message responseData =>
        (Exn (RequestError message responseData), s')
    end.

(** The arguments of [login]. *)
Definition loginArgs : list (string * jsval) :=
  [ ("user_auth",
     JObject CtorObject
       [ ("user_name", JString (trim config_username));
         ("password", JString (md5Hash (trim config_password))) ]);
    ("application_name", JString config_applicationName);
    ("name_value_list", JObject CtorObject []) ].

(** [getToken] *)
Definition getToken : M jsval :=
  t <- read_token ;;
  if truthy t then ret t
  else
    try_catch
      (response <- request "login" loginArgs ;;
       (if is_nullish response then throw TypeError else ret tt) ;;;
       write_token (or_else (get response "id") JNull) ;;;
       username <- lift (read_login_value response "user_name") ;;
       isAdmin <- lift (read_login_value response "user_is_admin") ;;
       id <- lift (read_login_value response "user_id") ;;
       write_userInfo
         (Some {| username := or_else username (JString "");
                  isAdmin := or_else isAdmin (JBool false);
                  id := or_else id (JString "") |}) ;;;
       t' <- read_token ;;
       if truthy t' then ret t'
       else
         throw (TokenError
                  (or_else (get response "description")
                     (JString "Error desconocido al obtener token"))))
      (fun error => clearToken ;;; throw error).

(** The Error [call] throws for an error response, at once or on the
    retry. *)
Definition api_error_of (result : jsval) : exn :=
  ApiError (get result "name") (get result "description").

(** [result.name === 'Invalid Session ID'] *)
Definition is_invalid_session (result : jsval) : bool :=
  match get result "name" with
  | JString name => String.eqb name "Invalid Session ID"
  | _ => false
  end.

(** [if (!this.token) { await this.getToken() }] *)
Definition ensure_token : M unit :=
  t <- read_token ;;
  if truthy t then ret tt else getToken ;;; ret tt.

(** The body of the [try] block of [call]. *)
Definition checked_request (method : string)
    (callArgs : list (string * jsval)) : M jsval :=
  result <- request method callArgs ;;
  if isApiErrorResponse result then
    if is_invalid_session result
    then throw (AuthenticationError "Invalid Session ID" 401)
    else throw (api_error_of result)
  else ret result.

(** The branch of the [catch] block of [call] for an authentication error
    of status 401: a new login, then the same request once more with the
    new token as [callArgs.session]. *)
Definition retry (method : string) (callArgs : list (string * jsval))
    : M jsval :=
  clearToken ;;;
  getToken ;;;
  session <- read_token ;;
  let callArgs := obj_set "session" session callArgs in
  retryResult <- request method callArgs ;;
  if isApiErrorResponse retryResult
  then throw (api_error_of retryResult)
  else ret retryResult.

(** [call] *)
Definition call (method : string) (args : list (string * jsval)) : M jsval :=
  ensure_token ;;;
  session <- read_token ;;
  let callArgs := spread [("session", session)] args in
  try_catch
    (checked_request method callArgs)
    (fun error =>
       match error with
       | AuthenticationError _ status =>
           if Z.eqb status 401 then retry method callArgs else throw error
       | _ => throw error
       end).

(** The object [entryArgs] as it is serialised. *)
Definition entryArgs_object (a : GetEntryListArgs.t)
    : list (string * jsval) :=
  [ ("module_name", JString (GetEntryListArgs.module_name a));
    ("query", JString (GetEntryListArgs.query a));
    ("order_by", JString (GetEntryListArgs.order_by a));
    ("offset", JNumber (GetEntryListArgs.offset a));
    ("select_fields",
     JArray (map JString (GetEntryListArgs.select_fields a)));
    ("link_name_to_fields_array",
     JArray (map (fun item =>
                    JObject CtorObject
                      [ ("name", JString (GetEntryListArgs.name item));
                        ("value",
                         JArray (map JString (GetEntryListArgs.value item))) ])
                 (GetEntryListArgs.link_name_to_fields_array a)));
    ("max_results", JNumber (GetEntryListArgs.max_results a));
    ("deleted", JNumber (GetEntryListArgs.deleted a)) ].

(** [getEntryListRaw] *)
Definition getEntryListRaw (options : GetEntryListOptions.t) : M jsval :=
  u <- read_userInfo ;;
  (match u with
   | Some _ => ret tt
   | None => getToken ;;; ret tt
   end) ;;;
  call "get_entry_list" (entryArgs_object (Service.entryArgs options)).

(** A name-value list as it is serialised. *)
Definition name_value_object (l : list (string * Service.NameValue)) : jsval :=
  JObject CtorObject
    (map (fun kv =>
            (fst kv,
             JObject CtorObject
               [ ("name", JString (Service.nv_name (snd kv)));
                 ("value", Service.value (snd kv)) ]))
         l).

(** [setEntry]: the argument object, with [session: this.token] read as
    the object is built, is handed to [call]. *)
Definition setEntry (module : Domain.SuiteCrmModule) (values : jsval)
    : M unit :=
  let name_value_list := SetEntry.setEntry_name_value_list values in
  session <- read_token ;;
  call "set_entry"
    [ ("session", session);
      ("module_name", JString (Domain.name module));
      ("name_value_list", name_value_object name_value_list) ] ;;;
  ret tt.

End Remote.

End Session.

(** ** The base URL of the service *)

Module Config.

(** [baseURL.endsWith('/')] *)
Fixpoint endsWith_slash (baseURL : string) : bool :=
  match baseURL with
  | EmptyString => false
  | String c rest =>
      match rest with
      | EmptyString => Ascii.eqb c "/"%char
      | String _ _ => endsWith_slash rest
      end
  end.

(** The [baseURL] the constructor gives to [axios.create]:
    [config.baseURL.endsWith('/') ? config.baseURL : `${config.baseURL}/`] *)
Definition axios_baseURL (baseURL : string) : string :=
  if endsWith_slash baseURL then baseURL else (baseURL ++ "/")%string.

End Config.

(** ** Sample data

    Concrete descriptors and responses on which the properties below are
    exercised. *)

Module Samples.
Import Domain.

(** Three base modules, then two links whose remote names differ and
    normalise to the same key [relatedItems]. *)
Definition contacts := new_SuiteCrmModule ∅ "Contacts" None.
Definition accounts := new_SuiteCrmModule contacts.1 "Accounts" None.
Definition leads := new_SuiteCrmModule accounts.1 "Leads" None.
Definition leads1 := withLink leads.1 leads.2 "related_items" contacts.2.
Definition leads2 := withLink leads1.1 leads1.2 "relatedItems" accounts.2.

Import Service.

(** The entry [key: { name: key, value: text }] of a name-value list. *)
Definition field (key text : string) : string * option NameValue :=
  (key, Some {| nv_name := key; value := JString text |}).

Definition primary (fields : list (string * option NameValue)) : Entry :=
  {| name_value_list := Some fields |}.

Definition subrecord (fields : list (string * option NameValue)) : LinkRecord :=
  {| link_value := Some fields |}.

Definition link_group (linkName : string) (subrecords : list LinkRecord)
    : LinkList :=
  {| name := linkName; records := Some subrecords |}.

Definition expansion (groups : list LinkList) : RelationshipEntry :=
  {| link_list := Some groups |}.

(** [{ entry_list: [{ name_value_list: { id, first_name } }] }] *)
Definition response_plain : EntryListResponse :=
  {| entry_list := Some [ primary [field "id" "1"; field "first_name" "A"] ];
     relationship_list := None |}.

(** One primary record with the relationship [contacts] expanded to one
    sub-record [{ email1 }]. *)
Definition response_contacts : EntryListResponse :=
  {| entry_list := Some [ primary [field "id" "1"] ];
     relationship_list :=
       Some [ Some (expansion
                [ link_group "contacts"
                    [ subrecord [field "email1" "x@y.com"] ] ]) ] |}.

(** The same relationship expanded to two sub-records. *)
Definition response_two_contacts : EntryListResponse :=
  {| entry_list := Some [ primary [field "id" "1"] ];
     relationship_list :=
       Some [ Some (expansion
                [ link_group "contacts"
                    [ subrecord [field "email1" "first@y.com"];
                      subrecord [field "email1" "second@y.com"] ] ]) ] |}.

(** An own field [contacts_email1] next to the field [email1] of the
    relationship [contacts]. *)
Definition response_shadowed : EntryListResponse :=
  {| entry_list := Some [ primary [field "contacts_email1" "own"] ];
     relationship_list :=
       Some [ Some (expansion
                [ link_group "contacts"
                    [ subrecord [field "email1" "related"] ] ]) ] |}.

(** Two primary records, a relationship list with one entry only. *)
Definition response_short : EntryListResponse :=
  {| entry_list :=
       Some [ primary [field "id" "1"]; primary [field "last_name" "B"] ];
     relationship_list :=
       Some [ Some (expansion
                [ link_group "contacts"
                    [ subrecord [field "email1" "x@y.com"] ] ]) ] |}.

(** Options with every optional member omitted. *)
Definition options_minimal : GetEntryListOptions.t :=
  {| GetEntryListOptions.module := leads.2;
     GetEntryListOptions.query := "";
     GetEntryListOptions.orderBy := None;
     GetEntryListOptions.offset := None;
     GetEntryListOptions.selectedFields := None;
     GetEntryListOptions.linkNameToFieldsArray := None;
     GetEntryListOptions.maxResults := None;
     GetEntryListOptions.deleted := None |}.


(** [{ listA: [["x"]] }]: a sequence inside a sequence. *)
Definition nested_sequence : jsval :=
  JObject CtorObject [("listA", JArray [JArray [JString "x"]])].

(** [{ seenAt: [new Date(0)] }]: an object that is not a plain record,
    inside a sequence. A [Date] has no own enumerable property. *)
Definition date_in_sequence : jsval :=
  JObject CtorObject [("seenAt", JArray [JObject CtorOther []])].

(** [{ seenAt: new Date(0), ownerInfo: { firstName: "A" } }] *)
Definition date_as_property : jsval :=
  JObject CtorObject
    [("seenAt", JObject CtorOther []);
     ("ownerInfo", JObject CtorObject [("firstName", JString "A")])].

End Samples.

Module SessionSamples.
Import Session.

(** The remote end that answers the n-th request with the n-th reply of a
    script, and with a transport failure once the script is over. *)
Definition scripted (replies : list reply)
    : list request_record -> reply :=
  fun sent => nth (length sent - 1) replies (Failure "Network Error" "").

(** A successful [login] response with session id [token]. *)
Definition login_response (token : string) : jsval :=
  JObject CtorObject
    [ ("id", JString token);
      ("module_name", JString "Users");
      ("name_value_list",
       JObject CtorObject
         [ ("user_id",
            JObject CtorObject
              [("name", JString "user_id"); ("value", JString "1")]);
           ("user_name",
            JObject CtorObject
              [("name", JString "user_name"); ("value", JString "admin")]);
           ("user_is_admin",
            JObject CtorObject
              [("name", JString "user_is_admin"); ("value", JBool true)]) ]) ].

(** The error response for an expired session. *)
Definition invalid_session_response : jsval :=
  JObject CtorObject
    [ ("name", JString "Invalid Session ID");
      ("number", JNumber 11);
      ("description",
       JString "The session ID is invalid") ].

(** An empty [get_entry_list] response. *)
Definition empty_list_response : jsval :=
  JObject CtorObject
    [ ("result_count", JNumber 0); ("entry_list", JArray []) ].

(** A service holding a token that the remote end no longer accepts. *)
Definition stale_service : service :=
  {| token := JString "old";
     userInfo := Some {| id := JString "1"; username := JString "admin";
                         isAdmin := JBool true |};
     sent := [] |}.

(** Strings are hashed and trimmed to themselves in the samples. *)
Definition same (s : string) : string := s.

End SessionSamples.

(** * Properties *)

(** ** Case converter *)

Section CaseConverterFacts.

(** The examples of the source's documentation. *)
Example camelToSnake_assignedUserId :
  camelToSnake "assignedUserId" = "assigned_user_id".
Proof. reflexivity. Qed.

Example camelToSnake_nroDocIdentificacion :
  camelToSnake "nroDocIdentificacion" = "nro_doc_identificacion".
Proof. reflexivity. Qed.

Example snakeToCamel_assigned_user_id :
  snakeToCamel "assigned_user_id" = "assignedUserId".
Proof. reflexivity. Qed.

Example snakeToCamel_nro_doc_identificacion :
  snakeToCamel "nro_doc_identificacion" = "nroDocIdentificacion".
Proof. reflexivity. Qed.

(** An underscore at the end, or in front of anything but a lowercase
    letter, stays. *)
Example snakeToCamel_keeps_other_underscores :
  snakeToCamel "a_" = "a_" ∧ snakeToCamel "contacts_1st" = "contacts_1st" ∧
  snakeToCamel "a__b" = "a_B" ∧ snakeToCamel "a_B" = "a_B".
Proof. repeat split; reflexivity. Qed.

(** A string that already holds an underscore does not come back. *)
Example roundtrip_needs_no_underscore :
  snakeToCamel (camelToSnake "a_b") = "aB".
Proof. reflexivity. Qed.

Lemma upper_lower_inverse (c : ascii) :
  is_upper c = true →
  is_lower (toLowerCase c) = true ∧ toUpperCase (toLowerCase c) = c.
Proof.
  destruct c as [[] [] [] [] [] [] [] []]; vm_compute; intros H;
    first [discriminate H | split; reflexivity].
Qed.

Lemma upper_not_underscore (c : ascii) :
  is_upper c = true → Ascii.eqb c underscore = false.
Proof.
  destruct c as [[] [] [] [] [] [] [] []]; vm_compute; intros H;
    first [discriminate H | reflexivity].
Qed.

Lemma ident_char_not_underscore (c : ascii) :
  ident_char c = true → Ascii.eqb c underscore = false.
Proof.
  destruct c as [[] [] [] [] [] [] [] []]; vm_compute; intros H;
    first [discriminate H | reflexivity].
Qed.

(** Without an underscore in the input, every underscore of
    [camelToSnake s] was put there in front of a lowered capital, and
    [snakeToCamel] takes exactly those out again. *)
Lemma snakeToCamel_camelToSnake_underscore_free (s : string) :
  forallb (λ c, negb (Ascii.eqb c underscore)) (chars s) = true →
  snakeToCamel (camelToSnake s) = s.
Proof.
  induction s as [|c s IH]; [reflexivity|].
  cbn [chars forallb]. intros [Hc Hs]%andb_true_iff.
  apply negb_true_iff in Hc. cbn [camelToSnake].
  destruct (is_upper c) eqn:Hup.
  - destruct (upper_lower_inverse c Hup) as [Hlow Hback].
    cbn [snakeToCamel]. rewrite Hlow, Hback, (IH Hs).
    reflexivity.
  - cbn [snakeToCamel]. rewrite Hc, (IH Hs). reflexivity.
Qed.

Lemma camel_identifier_underscore_free (s : string) :
  camel_identifier s = true →
  forallb (λ c, negb (Ascii.eqb c underscore)) (chars s) = true.
Proof.
  unfold camel_identifier. intros [Hall _]%andb_true_iff.
  induction (chars s) as [|c l IH]; [reflexivity|].
  cbn [forallb] in *. apply andb_true_iff in Hall as [Hc Hl].
  rewrite (ident_char_not_underscore c Hc). cbn. auto.
Qed.

End CaseConverterFacts.

(** C8. For every string made of lowercase letters and digits with
    internal uppercase letters as word boundaries (no underscore, no
    leading uppercase letter), converting to the external convention with
    [camelToSnake] and back with [snakeToCamel] gives the string again. *)
Theorem snakeToCamel_camelToSnake_roundtrip (s : string) :
  camel_identifier s = true →
  snakeToCamel (camelToSnake s) = s.
Proof.
  intros H. apply snakeToCamel_camelToSnake_underscore_free.
  by apply camel_identifier_underscore_free.
Qed.

Lemma snakeToCamel_camelToSnake_roundtrip_witness :
  camel_identifier "fitacFitacProy" = true ∧
  camelToSnake "fitacFitacProy" = "fitac_fitac_proy" ∧
  snakeToCamel (camelToSnake "fitacFitacProy") = "fitacFitacProy".
Proof.
  split; [reflexivity|]. split; [reflexivity|].
  apply (snakeToCamel_camelToSnake_roundtrip "fitacFitacProy"). reflexivity.
Defined.

(** ** Module descriptors *)

Import Domain.

Section BuilderFacts.

Lemma withLink_store (h : store) this k t :
  (withLink h this k t).1 =
    <[fresh (dom h) :=
        <[snakeToCamel k := new_SuiteCrmRelationship k t]> (read h (links this))]> h.
Proof. reflexivity. Qed.

Lemma withLink_module (h : store) this k t :
  (withLink h this k t).2 = {| name := name this; links := fresh (dom h) |}.
Proof. reflexivity. Qed.

Lemma withLink_fresh (h : store) this k t :
  links (withLink h this k t).2 ∉ dom h.
Proof. rewrite withLink_module. cbn. apply is_fresh. Qed.

Lemma withLink_read_new (h : store) this k t :
  read (withLink h this k t).1 (links (withLink h this k t).2) =
    <[snakeToCamel k := new_SuiteCrmRelationship k t]> (read h (links this)).
Proof.
  rewrite withLink_store, withLink_module. cbn [links].
  unfold read at 1. by rewrite lookup_insert_eq.
Qed.

Lemma withLink_frame (h : store) this k t (l : loc) :
  l ∈ dom h → (withLink h this k t).1 !! l = h !! l.
Proof.
  intros Hl. rewrite withLink_store. apply lookup_insert_ne.
  intros Heq. apply (is_fresh (dom h)). by rewrite Heq.
Qed.

End BuilderFacts.

Import Samples.

(** C1 (as stated, refuted). Deriving a descriptor with a second
    relationship whose remote name normalises to the key of one already
    present raises nothing: with [related_items] present, adding
    [relatedItems] returns a descriptor whose single relationship is the
    second one. *)
Lemma withLink_collision_no_error :
  "related_items" ≠ "relatedItems" ∧
  snakeToCamel "related_items" = snakeToCamel "relatedItems" ∧
  read leads1.1 (links leads1.2) !! "relatedItems"
    = Some (new_SuiteCrmRelationship "related_items" contacts.2) ∧
  withLink_completion leads1.1 leads1.2 "relatedItems" accounts.2
    = Returns leads2 ∧
  (∀ message,
     withLink_completion leads1.1 leads1.2 "relatedItems" accounts.2
       ≠ Throws message) ∧
  map_to_list (read leads2.1 (links leads2.2))
    = [("relatedItems", new_SuiteCrmRelationship "relatedItems" accounts.2)].
Proof.
  split; [discriminate|]. split; [reflexivity|].
  split; [by vm_compute|]. split; [reflexivity|].
  split; [intros message; discriminate|]. by vm_compute.
Qed.

(** C1 (amended). [withLink] always returns; when the normalised key of
    the new remote name is already a key of the descriptor, the returned
    descriptor binds that key to the new relationship in place of the
    earlier one, with the same keys and the same count. *)
Theorem withLink_collision_replaces (h : store) this k t earlier :
  read h (links this) !! snakeToCamel k = Some earlier →
  ∃ h' m',
    withLink_completion h this k t = Returns (h', m') ∧
    read h' (links m') !! snakeToCamel k
      = Some (new_SuiteCrmRelationship k t) ∧
    dom (read h' (links m')) = dom (read h (links this)) ∧
    size (read h' (links m')) = size (read h (links this)).
Proof.
  intros Hin.
  exists (withLink h this k t).1, (withLink h this k t).2.
  split; [unfold withLink_completion; by destruct (withLink h this k t)|].
  rewrite withLink_read_new.
  assert (Hdom : dom (<[snakeToCamel k := new_SuiteCrmRelationship k t]>
                        (read h (links this))) = dom (read h (links this))).
  { rewrite dom_insert_L.
    assert (Hk : snakeToCamel k ∈ dom (read h (links this)))
      by (apply elem_of_dom; eauto).
    apply (anti_symm (⊆)); [|apply union_subseteq_r].
    apply union_subseteq; split; [|done]. by apply singleton_subseteq_l. }
  split; [apply lookup_insert_eq|]. split; [exact Hdom|].
  by rewrite <- !size_dom, Hdom.
Qed.

Lemma withLink_collision_replaces_witness :
  ∃ h' m',
    withLink_completion leads1.1 leads1.2 "relatedItems" accounts.2
      = Returns (h', m') ∧
    read h' (links m') !! snakeToCamel "relatedItems"
      = Some (new_SuiteCrmRelationship "relatedItems" accounts.2) ∧
    dom (read h' (links m')) = dom (read leads1.1 (links leads1.2)) ∧
    size (read h' (links m')) = size (read leads1.1 (links leads1.2)).
Proof.
  apply (withLink_collision_replaces leads1.1 leads1.2 "relatedItems"
           accounts.2 (new_SuiteCrmRelationship "related_items" contacts.2)).
  by vm_compute.
Defined.

(** C5 (as stated, refuted). The returned map is not always the input's
    map plus one entry: when the normalised key is already present the
    count stays the same and the earlier entry is not kept. *)
Lemma withLink_not_always_one_more :
  size (read leads2.1 (links leads2.2))
    ≠ S (size (read leads1.1 (links leads1.2))) ∧
  ¬ (read leads1.1 (links leads1.2) ⊆ read leads2.1 (links leads2.2)).
Proof.
  split; [by vm_compute|].
  intros Hsub.
  assert (Hold : read leads1.1 (links leads1.2) !! "relatedItems"
            = Some (new_SuiteCrmRelationship "related_items" contacts.2))
    by (by vm_compute).
  pose proof (lookup_weaken _ _ _ _ Hold Hsub) as H.
  vm_compute in H. discriminate H.
Qed.

(** C5 (amended). [withLink] leaves every existing link object as it was,
    so the input descriptor has the same relationship map (same keys, same
    count) afterwards; the returned descriptor keeps the name and its map
    is the input's map with the normalised key bound to the new
    relationship, which is one more entry, all earlier ones kept, when
    that key was not yet present. *)
Theorem withLink_does_not_mutate (h : store) this k t :
  links this ∈ dom h →
  let r := withLink h this k t in
  let before := read h (links this) in
  let after := read r.1 (links r.2) in
  (∀ l, l ∈ dom h → r.1 !! l = h !! l) ∧
  read r.1 (links this) = before ∧
  dom (read r.1 (links this)) = dom before ∧
  size (read r.1 (links this)) = size before ∧
  links r.2 ≠ links this ∧
  name r.2 = name this ∧
  after = <[snakeToCamel k := new_SuiteCrmRelationship k t]> before ∧
  (before !! snakeToCamel k = None →
     size after = S (size before) ∧
     before ⊆ after ∧
     dom after = {[snakeToCamel k]} ∪ dom before).
Proof.
  intros Hthis r before after.
  assert (Hsame : read r.1 (links this) = before).
  { unfold read, r, before. by rewrite withLink_frame. }
  assert (Hafter :
    after = <[snakeToCamel k := new_SuiteCrmRelationship k t]> before)
    by apply withLink_read_new.
  split; [intros l Hl; by apply withLink_frame|].
  split; [exact Hsame|]. rewrite Hsame.
  split; [reflexivity|]. split; [reflexivity|].
  split.
  { intros Heq. apply (withLink_fresh h this k t). fold r.
    by rewrite Heq. }
  split; [reflexivity|]. split; [exact Hafter|].
  intros Hnone. rewrite Hafter.
  split; [by apply map_size_insert_None|].
  split; [by apply insert_subseteq|]. apply dom_insert_L.
Qed.

Lemma withLink_does_not_mutate_witness :
  read leads1.1 (links leads.2) = read leads.1 (links leads.2) ∧
  size (read leads1.1 (links leads.2)) = 0 ∧
  size (read leads1.1 (links leads1.2)) = 1 ∧
  read leads1.1 (links leads1.2)
    = {[ "relatedItems" := new_SuiteCrmRelationship "related_items" contacts.2 ]}.
Proof.
  assert (Hin : links leads.2 ∈ dom leads.1)
    by (apply elem_of_dom; vm_compute; eauto).
  destruct (withLink_does_not_mutate leads.1 leads.2 "related_items"
              contacts.2 Hin) as (_ & Hsame & _ & Hsize & _ & _ & Hafter & Hnew).
  assert (Hnone : read leads.1 (links leads.2) !! snakeToCamel "related_items"
            = None) by (by vm_compute).
  destruct (Hnew Hnone) as (Hone & _ & _).
  split; [exact Hsame|].
  split; [etrans; [exact Hsize|by vm_compute]|].
  split; [exact Hone|].
  etrans; [exact Hafter|by vm_compute].
Defined.

(** ** Flattening *)

Import Service.
Local Open Scope list_scope.

Section AssignmentLoops.
(** Both inner loops assign [flatEntry[f key] = valueObj?.value] for each
    entry in turn, for a key function [f]. *)
Context (f : string → string).

Local Abbreviation assign_all :=
  (foldl (λ (flatEntry : flat_record) (kv : string * option NameValue),
            <[f kv.1 := value_of kv.2]> flatEntry)).

Lemma assign_untouched (l : name_values) (acc : flat_record) (K : string) :
  (∀ kv, kv ∈ l → f kv.1 ≠ K) → assign_all acc l !! K = acc !! K.
Proof.
  revert acc. induction l as [|kv l IH]; intros acc Hno; [reflexivity|].
  cbn [foldl]. rewrite IH.
  - apply lookup_insert_ne. apply Hno. left.
  - intros kv' Hin. apply Hno. by right.
Qed.

Lemma assign_last (F1 F2 : name_values) key valueObj (acc : flat_record) :
  (∀ kv, kv ∈ F2 → f kv.1 ≠ f key) →
  assign_all acc (F1 ++ (key, valueObj) :: F2) !! f key
    = Some (value_of valueObj).
Proof.
  intros Hno. rewrite foldl_app. cbn [foldl].
  rewrite (assign_untouched _ _ _ Hno). apply lookup_insert_eq.
Qed.

Lemma assign_keeps_keys (l : name_values) (acc : flat_record) (K : string) :
  is_Some (acc !! K) → is_Some (assign_all acc l !! K).
Proof.
  revert acc. induction l as [|kv l IH]; intros acc Hin; [exact Hin|].
  cbn [foldl]. apply IH. destruct (decide (f kv.1 = K)) as [->|Hne].
  - rewrite lookup_insert_eq. eauto.
  - by rewrite lookup_insert_ne.
Qed.

Lemma assign_adds_key (l : name_values) (acc : flat_record) kv :
  kv ∈ l → is_Some (assign_all acc l !! f kv.1).
Proof.
  intros (F1 & F2 & ->)%list_elem_of_split.
  rewrite foldl_app. cbn [foldl]. apply assign_keeps_keys.
  rewrite lookup_insert_eq. eauto.
Qed.

Lemma assign_provenance (l : name_values) (acc : flat_record) K v :
  assign_all acc l !! K = Some v →
  acc !! K = Some v ∨ ∃ kv, kv ∈ l ∧ f kv.1 = K ∧ value_of kv.2 = v.
Proof.
  revert acc. induction l as [|kv l IH]; intros acc Hl; [by left|].
  cbn [foldl] in Hl. destruct (IH _ Hl) as [Hacc|(kv' & Hin & Hk & Hv)].
  - destruct (decide (f kv.1 = K)) as [Heq|Hne].
    + rewrite Heq, lookup_insert_eq in Hacc. right. exists kv.
      split; [left|]. split; [exact Heq|congruence].
    + rewrite lookup_insert_ne in Hacc by exact Hne. by left.
  - right. exists kv'. split; [by right|done].
Qed.

End AssignmentLoops.

Section FlattenLoops.

Lemma flatten_link_value_untouched linkName lv (acc : flat_record) K :
  ¬ link_value_hits linkName lv K →
  flatten_link_value linkName lv acc !! K = acc !! K.
Proof.
  intros Hno.
  apply (assign_untouched (λ k, snakeToCamel (concatenatedKey linkName k))).
  intros kv Hin Heq. apply Hno. by exists kv.
Qed.

Lemma flatten_link_value_keeps_keys linkName lv (acc : flat_record) K :
  is_Some (acc !! K) → is_Some (flatten_link_value linkName lv acc !! K).
Proof.
  apply (assign_keeps_keys (λ k, snakeToCamel (concatenatedKey linkName k))).
Qed.

Lemma flatten_link_value_cons linkName key valueObj lv (acc : flat_record) :
  flatten_link_value linkName ((key, valueObj) :: lv) acc
    = flatten_link_value linkName lv
        (<[snakeToCamel (concatenatedKey linkName key) := value_of valueObj]>
           acc).
Proof. reflexivity. Qed.

Lemma flatten_link_value_app linkName (F1 F2 : name_values)
    (acc : flat_record) :
  flatten_link_value linkName (F1 ++ F2) acc
    = flatten_link_value linkName F2 (flatten_link_value linkName F1 acc).
Proof. apply foldl_app. Qed.

Lemma flatten_records_cons linkName record R (acc : flat_record) :
  flatten_records linkName (record :: R) acc
    = flatten_records linkName R
        (flatten_link_value linkName (or_empty (link_value record)) acc).
Proof. reflexivity. Qed.

Lemma flatten_records_app linkName R1 R2 (acc : flat_record) :
  flatten_records linkName (R1 ++ R2) acc
    = flatten_records linkName R2 (flatten_records linkName R1 acc).
Proof. apply foldl_app. Qed.

Lemma flatten_records_untouched linkName R (acc : flat_record) K :
  ¬ records_hit linkName R K →
  flatten_records linkName R acc !! K = acc !! K.
Proof.
  revert acc. induction R as [|record R IH]; intros acc Hno; [reflexivity|].
  rewrite flatten_records_cons, IH.
  - apply flatten_link_value_untouched. intros Hhit. apply Hno.
    exists record. split; [left|exact Hhit].
  - intros (r & Hin & Hhit). apply Hno. exists r. split; [by right|exact Hhit].
Qed.

Lemma flatten_records_keeps_keys linkName R (acc : flat_record) K :
  is_Some (acc !! K) → is_Some (flatten_records linkName R acc !! K).
Proof.
  revert acc. induction R as [|record R IH]; intros acc Hin; [exact Hin|].
  rewrite flatten_records_cons. apply IH.
  by apply flatten_link_value_keeps_keys.
Qed.

Lemma flatten_link_list_cons link L (acc : flat_record) :
  flatten_link_list (link :: L) acc
    = flatten_link_list L
        (flatten_records (name link) (or_empty (records link)) acc).
Proof. reflexivity. Qed.

Lemma flatten_link_list_app L1 L2 (acc : flat_record) :
  flatten_link_list (L1 ++ L2) acc
    = flatten_link_list L2 (flatten_link_list L1 acc).
Proof. apply foldl_app. Qed.

Lemma flatten_link_list_untouched L (acc : flat_record) K :
  ¬ link_list_hits L K → flatten_link_list L acc !! K = acc !! K.
Proof.
  revert acc. induction L as [|link L IH]; intros acc Hno; [reflexivity|].
  rewrite flatten_link_list_cons, IH.
  - apply flatten_records_untouched. intros Hhit. apply Hno.
    exists link. split; [left|exact Hhit].
  - intros (l & Hin & Hhit). apply Hno. exists l. split; [by right|exact Hhit].
Qed.

Lemma flatten_link_list_keeps_keys L (acc : flat_record) K :
  is_Some (acc !! K) → is_Some (flatten_link_list L acc !! K).
Proof.
  revert acc. induction L as [|link L IH]; intros acc Hin; [exact Hin|].
  rewrite flatten_link_list_cons. apply IH.
  by apply flatten_records_keeps_keys.
Qed.

(** The state of [flatEntry] just before a given field of a given
    sub-record of a given link group is assigned. *)
Lemma flatten_link_list_split (L1 : list LinkList) link (L2 : list LinkList)
    (R1 : list LinkRecord) record (R2 : list LinkRecord)
    (F1 : name_values) fieldName fieldValue (F2 : name_values)
    (acc : flat_record) :
  or_empty (records link) = R1 ++ record :: R2 →
  or_empty (link_value record) = F1 ++ (fieldName, fieldValue) :: F2 →
  flatten_link_list (L1 ++ link :: L2) acc
    = flatten_link_list L2
        (flatten_records (name link) R2
           (flatten_link_value (name link) F2
              (<[snakeToCamel (concatenatedKey (name link) fieldName)
                   := value_of fieldValue]>
                 (flatten_link_value (name link) F1
                    (flatten_records (name link) R1
                       (flatten_link_list L1 acc)))))).
Proof.
  intros HR HF.
  rewrite flatten_link_list_app, flatten_link_list_cons, HR.
  rewrite flatten_records_app, flatten_records_cons, HF.
  by rewrite flatten_link_value_app, flatten_link_value_cons.
Qed.

Lemma flattenEntryList_lookup result i :
  flattenEntryList result !! i
    = flatten_entry (or_empty (relationship_list result)) i
        <$> or_empty (entry_list result) !! i.
Proof. unfold flattenEntryList. apply list_lookup_imap. Qed.

Lemma flattenEntryList_length result :
  length (flattenEntryList result) = length (or_empty (entry_list result)).
Proof. unfold flattenEntryList. apply length_imap. Qed.

End FlattenLoops.

(** C2. When several assignments of the relationship expansion at one
    index go to the same flat key, the record returned holds the value of
    the last of them in response order: a field of a sub-record wins
    whenever no later field of that sub-record, no later sub-record of
    that link group and no later link group is assigned to the same key,
    whatever was assigned before. *)
Theorem flatten_last_write_wins result i entry relationship
    (L1 : list LinkList) link (L2 : list LinkList)
    (R1 : list LinkRecord) record (R2 : list LinkRecord)
    (F1 : name_values) fieldName fieldValue (F2 : name_values) :
  or_empty (entry_list result) !! i = Some entry →
  or_empty (relationship_list result) !! i = Some (Some relationship) →
  or_empty (link_list relationship) = L1 ++ link :: L2 →
  or_empty (records link) = R1 ++ record :: R2 →
  or_empty (link_value record) = F1 ++ (fieldName, fieldValue) :: F2 →
  let K := snakeToCamel (concatenatedKey (name link) fieldName) in
  ¬ link_value_hits (name link) F2 K →
  ¬ records_hit (name link) R2 K →
  ¬ link_list_hits L2 K →
  ∃ flat,
    flattenEntryList result !! i = Some flat ∧
    flat !! K = Some (value_of fieldValue).
Proof.
  intros Hentry Hrel HL HR HF K HF2 HR2 HL2.
  exists (flatten_entry (or_empty (relationship_list result)) i entry).
  split; [by rewrite flattenEntryList_lookup, Hentry|].
  unfold flatten_entry. rewrite Hrel, HL.
  rewrite (flatten_link_list_split _ _ _ _ _ _ _ _ _ _ _ HR HF).
  rewrite flatten_link_list_untouched by exact HL2.
  rewrite flatten_records_untouched by exact HR2.
  rewrite flatten_link_value_untouched by exact HF2.
  apply lookup_insert_eq.
Qed.

Lemma flatten_last_write_wins_witness :
  ∃ flat,
    flattenEntryList response_two_contacts !! 0 = Some flat ∧
    flat !! "contactsEmail1" = Some (JString "second@y.com").
Proof.
  apply (flatten_last_write_wins response_two_contacts 0
           (primary [field "id" "1"])
           (expansion
              [ link_group "contacts"
                  [ subrecord [field "email1" "first@y.com"];
                    subrecord [field "email1" "second@y.com"] ] ])
           []
           (link_group "contacts"
              [ subrecord [field "email1" "first@y.com"];
                subrecord [field "email1" "second@y.com"] ])
           []
           [ subrecord [field "email1" "first@y.com"] ]
           (subrecord [field "email1" "second@y.com"]) []
           [] "email1"
           (Some {| nv_name := "email1"; value := JString "second@y.com" |})
           []);
    try reflexivity.
  - intros (kv & Hin & _). by apply elem_of_nil in Hin.
  - intros (r & Hin & _). by apply elem_of_nil in Hin.
  - intros (l & Hin & _). by apply elem_of_nil in Hin.
Defined.

Section FlattenExamples.

Example flatten_response_plain :
  flattenEntryList response_plain
    = [ {[ "id" := JString "1"; "firstName" := JString "A" ]} ].
Proof. by vm_compute. Qed.

Example flatten_response_two_contacts :
  flattenEntryList response_two_contacts
    = [ {[ "id" := JString "1";
           "contactsEmail1" := JString "second@y.com" ]} ].
Proof. by vm_compute. Qed.

Example flatten_response_short :
  flattenEntryList response_short
    = [ {[ "id" := JString "1"; "contactsEmail1" := JString "x@y.com" ]};
        {[ "lastName" := JString "B" ]} ].
Proof. by vm_compute. Qed.

End FlattenExamples.

Section FlattenEntry.

Lemma flatten_name_values_last (N1 N2 : name_values) key valueObj
    (acc : flat_record) :
  ¬ name_values_hit N2 (snakeToCamel key) →
  flatten_name_values (N1 ++ (key, valueObj) :: N2) acc !! snakeToCamel key
    = Some (value_of valueObj).
Proof.
  intros Hno. apply (assign_last snakeToCamel).
  intros kv Hin Heq. apply Hno. by exists kv.
Qed.

Lemma flatten_name_values_adds_key (nvl : name_values) (acc : flat_record) kv :
  kv ∈ nvl → is_Some (flatten_name_values nvl acc !! snakeToCamel kv.1).
Proof. apply (assign_adds_key snakeToCamel). Qed.

Lemma flatten_name_values_provenance (nvl : name_values) K v :
  flatten_name_values nvl ∅ !! K = Some v →
  ∃ kv, kv ∈ nvl ∧ snakeToCamel kv.1 = K ∧ value_of kv.2 = v.
Proof.
  intros [Hempty|Hkv]%(assign_provenance snakeToCamel); [|exact Hkv].
  by rewrite lookup_empty in Hempty.
Qed.

Lemma flatten_entry_keeps_own rl i entry K :
  is_Some (flatten_name_values (or_empty (name_value_list entry)) ∅ !! K) →
  is_Some (flatten_entry rl i entry !! K).
Proof.
  intros Hown. unfold flatten_entry.
  destruct (rl !! i) as [[relationship|]|]; try exact Hown.
  by apply flatten_link_list_keeps_keys.
Qed.

Lemma flatten_entry_untouched rl i entry K :
  ¬ relationship_hits rl i K →
  flatten_entry rl i entry !! K
    = flatten_name_values (or_empty (name_value_list entry)) ∅ !! K.
Proof.
  unfold relationship_hits, flatten_entry.
  destruct (rl !! i) as [[relationship|]|]; intros Hno; try reflexivity.
  by apply flatten_link_list_untouched.
Qed.

Lemma flatten_entry_without_relationship rl i entry :
  rl !! i = None ∨ rl !! i = Some None →
  flatten_entry rl i entry
    = flatten_name_values (or_empty (name_value_list entry)) ∅.
Proof. unfold flatten_entry. by intros [-> | ->]. Qed.

End FlattenEntry.

(** C3. For a primary record at index [i] with a relationship-expansion
    entry, every field of every sub-record of every link group is assigned
    to the flat key [snakeToCamel (linkName ++ "_" ++ fieldName)]: the
    record returned at [i] is what the remaining assignments make of the
    record in which that key has just been set to the field's value. The
    key is present in the result, bound to that value unless a later
    assignment goes to the same key. *)
Theorem flatten_sets_relationship_fields result i entry relationship
    (L1 : list LinkList) link (L2 : list LinkList)
    (R1 : list LinkRecord) record (R2 : list LinkRecord)
    (F1 : name_values) fieldName fieldValue (F2 : name_values) :
  or_empty (entry_list result) !! i = Some entry →
  or_empty (relationship_list result) !! i = Some (Some relationship) →
  or_empty (link_list relationship) = L1 ++ link :: L2 →
  or_empty (records link) = R1 ++ record :: R2 →
  or_empty (link_value record) = F1 ++ (fieldName, fieldValue) :: F2 →
  let K := snakeToCamel (concatenatedKey (name link) fieldName) in
  let before :=
    flatten_link_value (name link) F1
      (flatten_records (name link) R1
         (flatten_link_list L1
            (flatten_name_values (or_empty (name_value_list entry)) ∅))) in
  ∃ flat,
    flattenEntryList result !! i = Some flat ∧
    flat = flatten_link_list L2
             (flatten_records (name link) R2
                (flatten_link_value (name link) F2
                   (<[K := value_of fieldValue]> before))) ∧
    is_Some (flat !! K) ∧
    (¬ link_value_hits (name link) F2 K →
     ¬ records_hit (name link) R2 K →
     ¬ link_list_hits L2 K →
     flat !! K = Some (value_of fieldValue)).
Proof.
  intros Hentry Hrel HL HR HF K before.
  exists (flatten_entry (or_empty (relationship_list result)) i entry).
  split; [by rewrite flattenEntryList_lookup, Hentry|].
  assert (Hflat :
    flatten_entry (or_empty (relationship_list result)) i entry
      = flatten_link_list L2
          (flatten_records (name link) R2
             (flatten_link_value (name link) F2
                (<[K := value_of fieldValue]> before)))).
  { unfold flatten_entry. rewrite Hrel, HL.
    apply (flatten_link_list_split _ _ _ _ _ _ _ _ _ _ _ HR HF). }
  split; [exact Hflat|]. rewrite Hflat. split.
  - apply flatten_link_list_keeps_keys, flatten_records_keeps_keys,
      flatten_link_value_keeps_keys.
    rewrite lookup_insert_eq. eauto.
  - intros HF2 HR2 HL2.
    rewrite flatten_link_list_untouched by exact HL2.
    rewrite flatten_records_untouched by exact HR2.
    rewrite flatten_link_value_untouched by exact HF2.
    apply lookup_insert_eq.
Qed.

Lemma flatten_sets_relationship_fields_witness :
  snakeToCamel (concatenatedKey "contacts" "email1") = "contactsEmail1" ∧
  ∃ flat,
    flattenEntryList response_contacts !! 0 = Some flat ∧
    flat !! "contactsEmail1" = Some (JString "x@y.com").
Proof.
  split; [reflexivity|].
  destruct (flatten_sets_relationship_fields response_contacts 0
              (primary [field "id" "1"])
              (expansion
                 [ link_group "contacts"
                     [ subrecord [field "email1" "x@y.com"] ] ])
              []
              (link_group "contacts" [ subrecord [field "email1" "x@y.com"] ])
              []
              [] (subrecord [field "email1" "x@y.com"]) []
              [] "email1"
              (Some {| nv_name := "email1"; value := JString "x@y.com" |}) []
              eq_refl eq_refl eq_refl eq_refl eq_refl)
    as (flat & Hlookup & _ & _ & Hlast).
  exists flat. split; [exact Hlookup|]. apply Hlast.
  - intros (kv & Hin & _). by apply elem_of_nil in Hin.
  - intros (r & Hin & _). by apply elem_of_nil in Hin.
  - intros (l & Hin & _). by apply elem_of_nil in Hin.
Defined.

(** C4 (as stated, refuted). An own field is not always bound to its own
    value in the record returned: the own field [contacts_email1] and the
    field [email1] of the relationship [contacts] go to the same flat key,
    and the relationship's value, assigned later, is the one held. *)
Lemma flatten_own_field_overwritten :
  ∃ entry flat,
    or_empty (entry_list response_shadowed) !! 0 = Some entry ∧
    field "contacts_email1" "own" ∈ or_empty (name_value_list entry) ∧
    flattenEntryList response_shadowed !! 0 = Some flat ∧
    flat !! snakeToCamel "contacts_email1" = Some (JString "related") ∧
    flat !! snakeToCamel "contacts_email1"
      ≠ Some (value_of (field "contacts_email1" "own").2).
Proof.
  exists (primary [field "contacts_email1" "own"]).
  exists (flatten_entry (or_empty (relationship_list response_shadowed)) 0
            (primary [field "contacts_email1" "own"])).
  split; [reflexivity|]. split; [cbn; left|].
  split; [reflexivity|]. split; [by vm_compute|].
  vm_compute. discriminate.
Qed.

(** C4 (amended). The flattening returns exactly one record per primary
    entry, at the same index. For every field of primary record [i] the
    record at [i] has the key [snakeToCamel remoteKey]; it is bound to
    that field's value unless a later own field or a field of the
    relationship expansion at [i] is assigned to the same key. *)
Theorem flatten_own_fields result :
  length (flattenEntryList result) = length (or_empty (entry_list result)) ∧
  ∀ i entry,
    or_empty (entry_list result) !! i = Some entry →
    ∃ flat,
      flattenEntryList result !! i = Some flat ∧
      ∀ (N1 : name_values) key valueObj (N2 : name_values),
        or_empty (name_value_list entry) = N1 ++ (key, valueObj) :: N2 →
        is_Some (flat !! snakeToCamel key) ∧
        (¬ name_values_hit N2 (snakeToCamel key) →
         ¬ relationship_hits (or_empty (relationship_list result)) i
             (snakeToCamel key) →
         flat !! snakeToCamel key = Some (value_of valueObj)).
Proof.
  split; [apply flattenEntryList_length|].
  intros i entry Hentry.
  exists (flatten_entry (or_empty (relationship_list result)) i entry).
  split; [by rewrite flattenEntryList_lookup, Hentry|].
  intros N1 key valueObj N2 HN. split.
  - apply flatten_entry_keeps_own.
    apply (flatten_name_values_adds_key _ _ (key, valueObj)).
    rewrite HN. apply elem_of_app. right. left.
  - intros Hown Hrel. rewrite flatten_entry_untouched by exact Hrel.
    rewrite HN. by apply flatten_name_values_last.
Qed.

Lemma flatten_own_fields_witness :
  length (flattenEntryList response_plain) = 1 ∧
  ∃ flat,
    flattenEntryList response_plain !! 0 = Some flat ∧
    flat !! "id" = Some (JString "1") ∧
    flat !! "firstName" = Some (JString "A").
Proof.
  destruct (flatten_own_fields response_plain) as [Hlen Hfields].
  split; [exact Hlen|].
  destruct (Hfields 0 (primary [field "id" "1"; field "first_name" "A"])
              eq_refl) as (flat & Hlookup & Hkeys).
  exists flat. split; [exact Hlookup|]. split.
  - apply (Hkeys [] "id" _ [field "first_name" "A"] eq_refl).
    + intros (kv & Hin & Heq). apply list_elem_of_singleton in Hin as ->.
      discriminate Heq.
    + intros [].
  - apply (Hkeys [field "id" "1"] "first_name" _ [] eq_refl).
    + intros (kv & Hin & _). by apply elem_of_nil in Hin.
    + intros [].
Defined.

Section RelationshipKeys.

Lemma flatten_link_list_adds_key (L : list LinkList) (acc : flat_record)
    link record fieldName fieldValue :
  link ∈ L →
  record ∈ or_empty (records link) →
  (fieldName, fieldValue) ∈ or_empty (link_value record) →
  is_Some (flatten_link_list L acc
             !! snakeToCamel (concatenatedKey (name link) fieldName)).
Proof.
  intros (L1 & L2 & ->)%list_elem_of_split
         (R1 & R2 & HR)%list_elem_of_split
         (F1 & F2 & HF)%list_elem_of_split.
  rewrite (flatten_link_list_split _ _ _ _ _ _ _ _ _ _ _ HR HF).
  apply flatten_link_list_keeps_keys, flatten_records_keeps_keys,
    flatten_link_value_keeps_keys.
  rewrite lookup_insert_eq. eauto.
Qed.

End RelationshipKeys.

(** C7. The flattening returns a record for every primary entry of every
    response. Where index [i] has no relationship-expansion entry (the
    relationship list is absent or shorter, or the entry is missing) the
    record at [i] is the one built from the own fields alone: its keys are
    exactly the normalised own-field names and each value comes from an
    own field. An absent [entry_list], [relationship_list],
    [name_value_list], [link_list], [records] or [link_value] behaves as
    an empty one. *)
Theorem flatten_total_without_relationship result :
  length (flattenEntryList result) = length (or_empty (entry_list result)) ∧
  (∀ i entry,
     or_empty (entry_list result) !! i = Some entry →
     or_empty (relationship_list result) !! i = None ∨
     or_empty (relationship_list result) !! i = Some None →
     ∃ flat,
       flattenEntryList result !! i = Some flat ∧
       flat = flatten_name_values (or_empty (name_value_list entry)) ∅ ∧
       (∀ key valueObj,
          (key, valueObj) ∈ or_empty (name_value_list entry) →
          is_Some (flat !! snakeToCamel key)) ∧
       (∀ K v,
          flat !! K = Some v →
          ∃ key valueObj,
            (key, valueObj) ∈ or_empty (name_value_list entry) ∧
            snakeToCamel key = K ∧ value_of valueObj = v)) ∧
  (entry_list result = None → flattenEntryList result = []) ∧
  (relationship_list result = None →
     flattenEntryList result
       = flattenEntryList {| entry_list := entry_list result;
                             relationship_list := Some [] |}) ∧
  (∀ rl i entry,
     name_value_list entry = None →
     flatten_entry rl i entry
       = flatten_entry rl i {| name_value_list := Some [] |}) ∧
  (∀ rl i entry relationship,
     rl !! i = Some (Some relationship) →
     link_list relationship = None →
     flatten_entry rl i entry
       = flatten_name_values (or_empty (name_value_list entry)) ∅) ∧
  (∀ link (L : list LinkList) (acc : flat_record),
     records link = None →
     flatten_link_list (link :: L) acc = flatten_link_list L acc) ∧
  (∀ linkName record (R : list LinkRecord) (acc : flat_record),
     link_value record = None →
     flatten_records linkName (record :: R) acc
       = flatten_records linkName R acc).
Proof.
  split; [apply flattenEntryList_length|]. split.
  { intros i entry Hentry Hnone.
    exists (flatten_name_values (or_empty (name_value_list entry)) ∅).
    split.
    { rewrite flattenEntryList_lookup, Hentry. cbn.
      by rewrite flatten_entry_without_relationship. }
    split; [reflexivity|]. split.
    - intros key valueObj Hin.
      apply (flatten_name_values_adds_key _ _ (key, valueObj) Hin).
    - intros K v Hlookup.
      destruct (flatten_name_values_provenance _ _ _ Hlookup)
        as ([key valueObj] & Hin & Hk & Hv).
      by exists key, valueObj. }
  split; [intros Hnone; unfold flattenEntryList; by rewrite Hnone|].
  split; [intros Hnone; unfold flattenEntryList; by rewrite Hnone|].
  split; [intros rl i entry Hnone; unfold flatten_entry; by rewrite Hnone|].
  split.
  { intros rl i entry relationship Hrel Hnone.
    unfold flatten_entry. by rewrite Hrel, Hnone. }
  split.
  - intros link L acc Hnone. rewrite flatten_link_list_cons. by rewrite Hnone.
  - intros linkName record R acc Hnone.
    rewrite flatten_records_cons. by rewrite Hnone.
Qed.

Lemma flatten_total_without_relationship_witness :
  length (flattenEntryList response_short) = 2 ∧
  or_empty (relationship_list response_short) !! 1 = None ∧
  flattenEntryList response_short !! 1
    = Some {[ "lastName" := JString "B" ]}.
Proof.
  destruct (flatten_total_without_relationship response_short)
    as (Hlen & Hown & _).
  split; [exact Hlen|]. split; [reflexivity|].
  destruct (Hown 1 (primary [field "last_name" "B"]) eq_refl
              (or_introl eq_refl)) as (flat & Hlookup & -> & _).
  exact Hlookup.
Defined.

(** ** Request arguments *)



(** ** Deep conversion *)

Import Js DeepConverter.

(** C9 (the code at a failing input). A sequence nested in a sequence is
    not mapped element by element: the array-item path hands every
    non-null object, arrays included, to the record conversion, which
    returns a record keyed by the indices. The same path turns an object
    that is no plain record into an empty plain record instead of passing
    it through, whereas the property path passes it through. *)
Theorem objectToSnakeCase_array_items :
  objectToSnakeCase nested_sequence
    = JObject CtorObject
        [("list_a", JArray [JObject CtorObject [("0", JString "x")]])] ∧
  walk_reference camelToSnake nested_sequence
    = JObject CtorObject [("list_a", JArray [JArray [JString "x"]])] ∧
  objectToSnakeCase date_in_sequence
    = JObject CtorObject [("seen_at", JArray [JObject CtorObject []])] ∧
  walk_reference camelToSnake date_in_sequence
    = JObject CtorObject [("seen_at", JArray [JObject CtorOther []])] ∧
  objectToCamelCase nested_sequence
    = JObject CtorObject
        [("listA", JArray [JObject CtorObject [("0", JString "x")]])] ∧
  objectToSnakeCase date_as_property
    = JObject CtorObject
        [("seen_at", JObject CtorOther []);
         ("owner_info", JObject CtorObject [("first_name", JString "A")])].
Proof. repeat split; reflexivity. Qed.

Section DeepConverterFacts.
Context (ck : string → string).

(** Induction on values through the two nested lists. *)
Lemma jsval_nested_ind (P : jsval → Prop) :
  P JUndefined → P JNull → (∀ b, P (JBool b)) → (∀ n, P (JNumber n)) →
  (∀ s, P (JString s)) →
  (∀ items, Forall P items → P (JArray items)) →
  (∀ c props, Forall (λ kv, P kv.2) props → P (JObject c props)) →
  ∀ v, P v.
Proof.
  intros Hu Hn Hb Hz Hs Harr Hobj.
  exact (fix IH (v : jsval) : P v :=
           match v with
           | JUndefined => Hu
           | JNull => Hn
           | JBool b => Hb b
           | JNumber n => Hz n
           | JString s => Hs s
           | JArray items =>
               Harr items
                 ((fix go (l : list jsval) : Forall P l :=
                     match l with
                     | [] => @List.Forall_nil _ P
                     | x :: l' => @List.Forall_cons _ P x l' (IH x) (go l')
                     end) items)
           | JObject c props =>
               Hobj c props
                 ((fix go (l : list (string * jsval))
                     : Forall (λ kv, P kv.2) l :=
                     match l with
                     | [] => @List.Forall_nil _ _
                     | kv :: l' =>
                         @List.Forall_cons _ (λ kv, P kv.2) kv l' (IH kv.2) (go l')
                     end) props)
           end).
Qed.

Lemma convertObject_props c props :
  convertObject ck (JObject c props)
    = JObject CtorObject
        (foldl (λ result kv, obj_set (ck kv.1) (convertProperty ck kv.2) result)
               [] props).
Proof.
  cbn [convertObject]. f_equal.
  generalize (@nil (string * jsval)).
  induction props as [|[k v] props IH]; intros acc; [reflexivity|].
  cbn [foldl]. rewrite <- IH. reflexivity.
Qed.

Lemma walk_reference_props c props :
  constructor_is_Object (JObject c props) = true →
  walk_reference ck (JObject c props)
    = JObject CtorObject
        (foldl (λ result kv, obj_set (ck kv.1) (walk_reference ck kv.2) result)
               [] props).
Proof.
  intros Hplain. cbn [walk_reference]. rewrite Hplain. clear Hplain.
  cbv iota. f_equal. generalize (@nil (string * jsval)).
  induction props as [|[k v] props IH]; intros acc; [reflexivity|].
  cbn [foldl]. rewrite <- IH. reflexivity.
Qed.

(** Away from sequences that hold sequences or objects that are no plain
    records, the code and the walk of the specification agree: on each
    property value, and on each plain record. *)
Lemma convertObject_agrees_on_plain_items (v : jsval) :
  sequence_items_plain v = true →
  convertProperty ck v = walk_reference ck v ∧
  (constructor_is_Object v = true → convertObject ck v = walk_reference ck v).
Proof.
  induction v as [| | b | n | s | items IH | c props IH]
    using jsval_nested_ind; intros Hreg;
    try (split; [reflexivity|intros Hplain; discriminate Hplain]).
  - split; [|intros Hplain; discriminate Hplain].
    cbn [convertProperty walk_reference]. f_equal.
    cbn [sequence_items_plain] in Hreg.
    induction IH as [|item items Hitem _ IHitems]; [reflexivity|].
    cbn [forallb] in Hreg. apply andb_true_iff in Hreg as [Hi Hrest].
    cbn [map]. rewrite (IHitems Hrest). f_equal.
    destruct item; try reflexivity; [discriminate Hi|].
    apply andb_true_iff in Hi as [Hplain Hr].
    cbn [is_nonnull_object]. by apply Hitem.
  - assert (Hobj : constructor_is_Object (JObject c props) = true →
                   convertObject ck (JObject c props)
                     = walk_reference ck (JObject c props)).
    { intros Hplain. rewrite convertObject_props, walk_reference_props
        by exact Hplain.
      f_equal. cbn [sequence_items_plain] in Hreg.
      rewrite Hplain in Hreg. cbn [negb orb] in Hreg.
      generalize (@nil (string * jsval)).
      clear Hplain. induction IH as [|kv props Hkv _ IHprops];
        intros acc; [reflexivity|].
      cbn [forallb] in Hreg. apply andb_true_iff in Hreg as [Hv Hrest].
      cbn [foldl]. destruct (Hkv Hv) as [-> _]. by apply IHprops. }
    split; [|exact Hobj].
    cbn [convertProperty].
    destruct (constructor_is_Object (JObject c props)) eqn:Hplain.
    + by apply Hobj.
    + cbn [walk_reference]. by rewrite Hplain.
Qed.

End DeepConverterFacts.

(** * Further properties *)

(** ** The two conventions *)

Import Naming.

Section NamingFacts.

(** Induction two characters at a time, as [snakeToCamel] recurses. *)
Lemma string_pair_ind (P : string → Prop) :
  P EmptyString →
  (∀ c, P (String c EmptyString)) →
  (∀ c d s, P s → P (String d s) → P (String c (String d s))) →
  ∀ s, P s.
Proof.
  intros H0 H1 H2 s.
  assert (Hboth : P s ∧ ∀ c, P (String c s)).
  { induction s as [|d s [IHs IHc]]; [by split|].
    split; [apply IHc|]. intros c. apply H2; [exact IHs|apply IHc]. }
  apply Hboth.
Qed.

Lemma lower_upper_inverse (c : ascii) :
  is_lower c = true →
  is_upper (toUpperCase c) = true ∧ toLowerCase (toUpperCase c) = c.
Proof.
  destruct c as [[] [] [] [] [] [] [] []]; vm_compute; intros H;
    first [discriminate H | split; reflexivity].
Qed.

Lemma lower_not_upper (c : ascii) : is_lower c = true → is_upper c = false.
Proof.
  destruct c as [[] [] [] [] [] [] [] []]; vm_compute; intros H;
    first [discriminate H | reflexivity].
Qed.

Lemma lowered_not_upper (c : ascii) :
  is_upper c = true → is_upper (toLowerCase c) = false.
Proof.
  destruct c as [[] [] [] [] [] [] [] []]; vm_compute; intros H;
    first [discriminate H | reflexivity].
Qed.

Lemma uppered_not_underscore_nor_lower (c : ascii) :
  is_lower c = true →
  Ascii.eqb (toUpperCase c) underscore = false ∧
  is_lower (toUpperCase c) = false.
Proof.
  destruct c as [[] [] [] [] [] [] [] []]; vm_compute; intros H;
    first [discriminate H | split; reflexivity].
Qed.

Lemma underscore_eqb (c : ascii) :
  Ascii.eqb c underscore = true → c = underscore.
Proof. apply Ascii.eqb_eq. Qed.

Lemma snakeToCamel_cons_boundary (d : ascii) (s : string) :
  is_lower d = true →
  snakeToCamel (String underscore (String d s))
    = String (toUpperCase d) (snakeToCamel s).
Proof. intros Hd. cbn [snakeToCamel]. by rewrite Ascii.eqb_refl, Hd. Qed.

Lemma snakeToCamel_cons_other (c : ascii) (s : string) :
  Ascii.eqb c underscore && starts_lower s = false →
  snakeToCamel (String c s) = String c (snakeToCamel s).
Proof.
  intros H. cbn [snakeToCamel].
  destruct (Ascii.eqb c underscore); [|reflexivity].
  destruct s as [|d s]; [reflexivity|]. cbn in H. by rewrite H.
Qed.

End NamingFacts.

Section Conventions.

Lemma no_upper_cons (c : ascii) (s : string) :
  no_upper (String c s) = negb (is_upper c) && no_upper s.
Proof. reflexivity. Qed.

Lemma camelToSnake_no_upper_fixed (s : string) :
  no_upper s = true → camelToSnake s = s.
Proof.
  induction s as [|c s IH]; [reflexivity|].
  rewrite no_upper_cons. intros [Hc Hs]%andb_true_iff.
  apply negb_true_iff in Hc. cbn [camelToSnake]. by rewrite Hc, IH.
Qed.

Lemma camelToSnake_output_no_upper (s : string) :
  no_upper (camelToSnake s) = true.
Proof.
  induction s as [|c s IH]; [reflexivity|].
  cbn [camelToSnake]. destruct (is_upper c) eqn:Hc.
  - rewrite !no_upper_cons, IH, (lowered_not_upper c Hc). reflexivity.
  - by rewrite no_upper_cons, Hc, IH.
Qed.

Lemma starts_lower_snakeToCamel (s : string) :
  starts_lower (snakeToCamel s) = true → starts_lower s = true.
Proof.
  destruct s as [|c s]; [done|]. cbn [snakeToCamel].
  destruct (Ascii.eqb c underscore) eqn:Hc; [|done].
  apply underscore_eqb in Hc as ->.
  destruct s as [|d s]; [done|].
  destruct (is_lower d) eqn:Hd; [|done].
  cbn [starts_lower]. intros H.
  by rewrite (proj2 (uppered_not_underscore_nor_lower d Hd)) in H.
Qed.

Lemma snakeToCamel_output_no_boundary (s : string) :
  snake_boundary (snakeToCamel s) = false.
Proof.
  induction s as [|c|c d s IHs IHds] using string_pair_ind.
  - reflexivity.
  - rewrite snakeToCamel_cons_other by apply andb_false_r.
    cbn [snakeToCamel snake_boundary starts_lower].
    by rewrite andb_false_r.
  - destruct (Ascii.eqb c underscore && starts_lower (String d s)) eqn:Hb.
    + apply andb_true_iff in Hb as [Hc Hd]. apply underscore_eqb in Hc as ->.
      cbn [starts_lower] in Hd. rewrite (snakeToCamel_cons_boundary d s Hd).
      cbn [snake_boundary]. rewrite IHs.
      by rewrite (proj1 (uppered_not_underscore_nor_lower d Hd)).
    + rewrite (snakeToCamel_cons_other c _ Hb). cbn [snake_boundary].
      rewrite IHds, orb_false_r.
      destruct (Ascii.eqb c underscore) eqn:Hc; [|reflexivity].
      cbn [andb] in *.
      destruct (starts_lower (snakeToCamel (String d s))) eqn:Hs;
        [|reflexivity].
      apply starts_lower_snakeToCamel in Hs. congruence.
Qed.

Lemma snakeToCamel_no_boundary_fixed (s : string) :
  snake_boundary s = false → snakeToCamel s = s.
Proof.
  induction s as [|c s IH]; [reflexivity|].
  cbn [snake_boundary]. intros [Hc Hs]%orb_false_iff.
  by rewrite (snakeToCamel_cons_other c s Hc), IH.
Qed.

End Conventions.

Lemma camelToSnake_snakeToCamel_no_upper (s : string) :
  no_upper s = true → camelToSnake (snakeToCamel s) = s.
Proof.
  induction s as [|c|c d s IHs IHds] using string_pair_ind.
  - reflexivity.
  - rewrite no_upper_cons. intros [Hc _]%andb_true_iff.
    apply negb_true_iff in Hc.
    rewrite snakeToCamel_cons_other by apply andb_false_r.
    cbn [snakeToCamel camelToSnake]. by rewrite Hc.
  - rewrite no_upper_cons. intros [Hc Hds]%andb_true_iff.
    apply negb_true_iff in Hc.
    destruct (Ascii.eqb c underscore && starts_lower (String d s)) eqn:Hb.
    + apply andb_true_iff in Hb as [Hu Hd]. apply underscore_eqb in Hu as ->.
      cbn [starts_lower] in Hd.
      rewrite no_upper_cons in Hds. apply andb_true_iff in Hds as [_ Hs].
      rewrite (snakeToCamel_cons_boundary d s Hd). cbn [camelToSnake].
      destruct (lower_upper_inverse d Hd) as [-> ->]. by rewrite (IHs Hs).
    + rewrite (snakeToCamel_cons_other c _ Hb). cbn [camelToSnake].
      by rewrite Hc, (IHds Hds).
Qed.

(** X1. Converting to the internal convention and back gives the string
    again whenever it holds no uppercase letter: underscores that
    [snakeToCamel] leaves in place (doubled, trailing, in front of a
    digit) are left in place by [camelToSnake] too. *)
Theorem camelToSnake_snakeToCamel_roundtrip (s : string) :
  no_upper s = true → camelToSnake (snakeToCamel s) = s.
Proof. apply camelToSnake_snakeToCamel_no_upper. Qed.

Lemma camelToSnake_snakeToCamel_roundtrip_witness :
  snakeToCamel "fitac__fitac_proy_1_" = "fitac_FitacProy_1_" ∧
  camelToSnake (snakeToCamel "fitac__fitac_proy_1_") = "fitac__fitac_proy_1_".
Proof.
  split; [reflexivity|].
  apply (camelToSnake_snakeToCamel_roundtrip "fitac__fitac_proy_1_").
  reflexivity.
Defined.

(** X2. [camelToSnake] never returns an uppercase letter; the strings it
    returns unchanged are exactly those without one; applying it twice
    is applying it once. *)
Theorem camelToSnake_fixed_points (s : string) :
  no_upper (camelToSnake s) = true ∧
  (camelToSnake s = s ↔ no_upper s = true) ∧
  camelToSnake (camelToSnake s) = camelToSnake s.
Proof.
  split; [apply camelToSnake_output_no_upper|]. split.
  - split; [|apply camelToSnake_no_upper_fixed].
    intros Heq. rewrite <- Heq. apply camelToSnake_output_no_upper.
  - apply camelToSnake_no_upper_fixed, camelToSnake_output_no_upper.
Qed.

(** X3. In what [snakeToCamel] returns no underscore is followed by a
    lowercase letter; the strings it returns unchanged are exactly those
    in which none is; applying it twice is applying it once. *)
Theorem snakeToCamel_fixed_points (s : string) :
  snake_boundary (snakeToCamel s) = false ∧
  (snakeToCamel s = s ↔ snake_boundary s = false) ∧
  snakeToCamel (snakeToCamel s) = snakeToCamel s.
Proof.
  split; [apply snakeToCamel_output_no_boundary|]. split.
  - split; [|apply snakeToCamel_no_boundary_fixed].
    intros Heq. rewrite <- Heq. apply snakeToCamel_output_no_boundary.
  - apply snakeToCamel_no_boundary_fixed, snakeToCamel_output_no_boundary.
Qed.

(** X4. Two names without underscores that [camelToSnake] sends to the
    same external name are the same name, and so are two names without
    uppercase letters that [snakeToCamel] sends to the same internal
    name. *)
Theorem conversions_injective_on_own_convention (s1 s2 : string) :
  (no_underscore s1 = true → no_underscore s2 = true →
   camelToSnake s1 = camelToSnake s2 → s1 = s2) ∧
  (no_upper s1 = true → no_upper s2 = true →
   snakeToCamel s1 = snakeToCamel s2 → s1 = s2).
Proof.
  split; intros H1 H2 Heq.
  - rewrite <- (snakeToCamel_camelToSnake_underscore_free s1 H1),
            <- (snakeToCamel_camelToSnake_underscore_free s2 H2).
    by rewrite Heq.
  - rewrite <- (camelToSnake_snakeToCamel_no_upper s1 H1),
            <- (camelToSnake_snakeToCamel_no_upper s2 H2).
    by rewrite Heq.
Qed.

Lemma conversions_injective_on_own_convention_witness :
  camelToSnake "firstName" ≠ camelToSnake "firstname" ∧
  snakeToCamel "first_name" ≠ snakeToCamel "firstname".
Proof.
  destruct (conversions_injective_on_own_convention "firstName" "firstname")
    as [Hcamel _].
  destruct (conversions_injective_on_own_convention "first_name" "firstname")
    as [_ Hsnake].
  split; intros Heq.
  - discriminate (Hcamel eq_refl eq_refl Heq).
  - discriminate (Hsnake eq_refl eq_refl Heq).
Defined.

Section CompositeKey.

(** An underscore after [a] shields [a] from what follows: no match of
    [/_([a-z])/] straddles the two parts. *)
Lemma snakeToCamel_app_underscore (a s : string) :
  snakeToCamel (a ++ String underscore s)%string
    = (snakeToCamel a ++ snakeToCamel (String underscore s))%string.
Proof.
  induction a as [|c|c d a IHa IHda] using string_pair_ind.
  - reflexivity.
  - change (String c "" ++ String underscore s)%string
      with (String c (String underscore s)).
    rewrite (snakeToCamel_cons_other c "") by apply andb_false_r.
    rewrite snakeToCamel_cons_other; [reflexivity|].
    cbn [starts_lower]. apply andb_false_r.
  - change (String c (String d a) ++ String underscore s)%string
      with (String c (String d (a ++ String underscore s)%string)).
    destruct (Ascii.eqb c underscore && is_lower d) eqn:Hb.
    + apply andb_true_iff in Hb as [Hc Hd]. apply underscore_eqb in Hc as ->.
      rewrite !(snakeToCamel_cons_boundary d _ Hd), IHa. reflexivity.
    + rewrite !(snakeToCamel_cons_other c (String d _)) by exact Hb.
      change (String d (a ++ String underscore s)%string)
        with (String d a ++ String underscore s)%string.
      rewrite IHda. reflexivity.
Qed.

End CompositeKey.

(** X5. A relationship field asked for by its internal name [c f] (a
    lowercase letter, then no underscore) is sent as
    [camelToSnake (c f)]; the flat key under which [flattenEntryList]
    stores what comes back under that name is the normalised link name
    followed by the internal name with its first letter in uppercase. *)
Theorem flat_key_of_requested_link_field (linkName : string) (c : ascii)
    (f : string) :
  is_lower c = true →
  no_underscore f = true →
  snakeToCamel (concatenatedKey linkName (camelToSnake (String c f)))
    = (snakeToCamel linkName ++ String (toUpperCase c) f)%string.
Proof.
  intros Hc Hf. unfold concatenatedKey.
  change (linkName ++ "_" ++ camelToSnake (String c f))%string
    with (linkName ++ String underscore (camelToSnake (String c f)))%string.
  rewrite snakeToCamel_app_underscore. f_equal.
  cbn [camelToSnake]. rewrite (lower_not_upper c Hc).
  rewrite (snakeToCamel_cons_boundary c _ Hc).
  by rewrite (snakeToCamel_camelToSnake_underscore_free f Hf).
Qed.

Lemma flat_key_of_requested_link_field_witness :
  camelToSnake "firstName" = "first_name" ∧
  snakeToCamel (concatenatedKey "fitac_fitac_proy_proyectos" "first_name")
    = "fitacFitacProyProyectosFirstName".
Proof.
  split; [reflexivity|].
  apply (flat_key_of_requested_link_field "fitac_fitac_proy_proyectos"
           "f"%char "irstName"); reflexivity.
Defined.

(** ** The relationship builder *)

(** X6. Two relationships whose names normalise to different keys can be
    added in either order: the two descriptors have the same name and the
    same relationship map, which holds both. *)
Theorem withLink_order_irrelevant (h : store) this k1 t1 k2 t2 :
  snakeToCamel k1 ≠ snakeToCamel k2 →
  let a1 := withLink h this k1 t1 in
  let a2 := withLink a1.1 a1.2 k2 t2 in
  let b1 := withLink h this k2 t2 in
  let b2 := withLink b1.1 b1.2 k1 t1 in
  read a2.1 (links a2.2) = read b2.1 (links b2.2) ∧
  Domain.name a2.2 = Domain.name b2.2 ∧
  read a2.1 (links a2.2) !! snakeToCamel k1
    = Some (new_SuiteCrmRelationship k1 t1) ∧
  read a2.1 (links a2.2) !! snakeToCamel k2
    = Some (new_SuiteCrmRelationship k2 t2) ∧
  (∀ K, K ≠ snakeToCamel k1 → K ≠ snakeToCamel k2 →
        read a2.1 (links a2.2) !! K = read h (links this) !! K).
Proof.
  intros Hne a1 a2 b1 b2.
  assert (Ha : read a2.1 (links a2.2)
               = <[snakeToCamel k2 := new_SuiteCrmRelationship k2 t2]>
                   (<[snakeToCamel k1 := new_SuiteCrmRelationship k1 t1]>
                      (read h (links this)))).
  { unfold a2. rewrite withLink_read_new. unfold a1.
    by rewrite withLink_read_new. }
  assert (Hb : read b2.1 (links b2.2)
               = <[snakeToCamel k1 := new_SuiteCrmRelationship k1 t1]>
                   (<[snakeToCamel k2 := new_SuiteCrmRelationship k2 t2]>
                      (read h (links this)))).
  { unfold b2. rewrite withLink_read_new. unfold b1.
    by rewrite withLink_read_new. }
  split; [rewrite Ha, Hb; by apply insert_insert_ne|].
  split; [reflexivity|]. rewrite Ha.
  split; [rewrite lookup_insert_ne by congruence; apply lookup_insert_eq|].
  split; [apply lookup_insert_eq|].
  intros K H1 H2. by rewrite !lookup_insert_ne by congruence.
Qed.

Lemma withLink_order_irrelevant_witness :
  let a := withLink leads1.1 leads1.2 "account_link" accounts.2 in
  let b1 := withLink leads.1 leads.2 "account_link" accounts.2 in
  let b := withLink b1.1 b1.2 "related_items" contacts.2 in
  read a.1 (links a.2) = read b.1 (links b.2) ∧
  size (read a.1 (links a.2)) = 2.
Proof.
  intros a b1 b.
  destruct (withLink_order_irrelevant leads.1 leads.2
              "related_items" contacts.2 "account_link" accounts.2)
    as (Heq & _); [discriminate|].
  split; [exact Heq|]. by vm_compute.
Defined.

(** X7. A base descriptor can be derived from twice: the second
    derivation starts from the base's own relationships, not from the
    first derivation's, and leaves the first derived descriptor and the
    base as they were. *)
Theorem withLink_base_reusable (h : store) base k1 t1 k2 t2 :
  links base ∈ dom h →
  let d1 := withLink h base k1 t1 in
  let d2 := withLink d1.1 base k2 t2 in
  read d2.1 (links d2.2)
    = <[snakeToCamel k2 := new_SuiteCrmRelationship k2 t2]>
        (read h (links base)) ∧
  read d2.1 (links d1.2)
    = <[snakeToCamel k1 := new_SuiteCrmRelationship k1 t1]>
        (read h (links base)) ∧
  read d2.1 (links base) = read h (links base) ∧
  links d1.2 ≠ links d2.2.
Proof.
  intros Hbase d1 d2.
  assert (Hbase1 : links base ∈ dom d1.1).
  { unfold d1. rewrite withLink_store, dom_insert_L.
    apply elem_of_union. by right. }
  assert (Hd1 : links d1.2 ∈ dom d1.1).
  { unfold d1. rewrite withLink_store, withLink_module, dom_insert_L.
    apply elem_of_union. left. by apply elem_of_singleton. }
  assert (Hread1 : read d1.1 (links base) = read h (links base)).
  { unfold read, d1. by rewrite withLink_frame. }
  split.
  { unfold d2. by rewrite withLink_read_new, Hread1. }
  split.
  { unfold read at 1. unfold d2. rewrite withLink_frame by exact Hd1.
    apply withLink_read_new. }
  split.
  { unfold read at 1. unfold d2. rewrite withLink_frame by exact Hbase1.
    exact Hread1. }
  intros Heq. apply (withLink_fresh d1.1 base k2 t2). fold d2.
  by rewrite <- Heq.
Qed.

Lemma withLink_base_reusable_witness :
  let d1 := withLink leads.1 leads.2 "related_items" contacts.2 in
  let d2 := withLink d1.1 leads.2 "account_link" accounts.2 in
  map_to_list (read d2.1 (links d2.2))
    = [("accountLink", new_SuiteCrmRelationship "account_link" accounts.2)] ∧
  map_to_list (read d2.1 (links d1.2))
    = [("relatedItems", new_SuiteCrmRelationship "related_items" contacts.2)] ∧
  read d2.1 (links leads.2) = ∅.
Proof.
  intros d1 d2.
  assert (Hin : links leads.2 ∈ dom leads.1)
    by (apply elem_of_dom; vm_compute; eauto).
  destruct (withLink_base_reusable leads.1 leads.2 "related_items" contacts.2
              "account_link" accounts.2 Hin) as (H2 & H1 & H0 & _).
  split; [fold d1 d2 in H2; rewrite H2; by vm_compute|].
  split; [fold d1 d2 in H1; rewrite H1; by vm_compute|].
  fold d1 d2 in H0. rewrite H0. by vm_compute.
Defined.

(** X8. Descriptors stay valid: the constructor called without links
    gives a descriptor with an empty relationship map held by a new
    object, [withLink] gives a descriptor held by a new object, and
    neither removes or changes an object that was there. *)
Theorem builder_allocates_fresh_objects (h : store) :
  (∀ n,
     (let r := new_SuiteCrmModule h n None in
      Domain.name r.2 = n ∧ read r.1 (links r.2) = ∅ ∧
      (links r.2 ∉ dom h) ∧ links r.2 ∈ dom r.1 ∧
      ∀ l, l ∈ dom h → r.1 !! l = h !! l)) ∧
  (∀ this k t,
     (let r := withLink h this k t in
      (links r.2 ∉ dom h) ∧ links r.2 ∈ dom r.1 ∧
      ∀ l, l ∈ dom h → l ∈ dom r.1 ∧ r.1 !! l = h !! l)).
Proof.
  split.
  - intros n r. unfold r, new_SuiteCrmModule. cbn.
    split; [reflexivity|].
    split; [unfold read; by rewrite lookup_insert_eq|].
    split; [apply is_fresh|].
    split; [rewrite dom_insert_L; apply elem_of_union; left;
            by apply elem_of_singleton|].
    intros l Hl. apply lookup_insert_ne. intros Heq.
    apply (is_fresh (dom h)). by rewrite Heq.
  - intros this k t r. split; [apply withLink_fresh|].
    split.
    { unfold r. rewrite withLink_store, withLink_module, dom_insert_L.
      apply elem_of_union. left. by apply elem_of_singleton. }
    intros l Hl. split; [|by apply withLink_frame].
    unfold r. rewrite withLink_store, dom_insert_L.
    apply elem_of_union. by right.
Qed.



(** ** Flattening, further *)

Section Provenance.

Lemma flatten_link_value_provenance linkName (lv : name_values)
    (acc : flat_record) K v :
  flatten_link_value linkName lv acc !! K = Some v →
  acc !! K = Some v ∨
  ∃ kv, kv ∈ lv ∧ snakeToCamel (concatenatedKey linkName kv.1) = K ∧
        value_of kv.2 = v.
Proof.
  apply (assign_provenance (λ k, snakeToCamel (concatenatedKey linkName k))).
Qed.

Lemma flatten_records_provenance linkName (R : list LinkRecord)
    (acc : flat_record) K v :
  flatten_records linkName R acc !! K = Some v →
  acc !! K = Some v ∨
  ∃ record kv, record ∈ R ∧ kv ∈ or_empty (link_value record) ∧
               snakeToCamel (concatenatedKey linkName kv.1) = K ∧
               value_of kv.2 = v.
Proof.
  revert acc. induction R as [|record R IH]; intros acc Hl; [by left|].
  rewrite flatten_records_cons in Hl.
  destruct (IH _ Hl) as [Hacc|(r & kv & Hr & Hrest)].
  - destruct (flatten_link_value_provenance _ _ _ _ _ Hacc)
      as [Hacc'|(kv & Hkv & Hk & Hv)]; [by left|].
    right. exists record, kv. split; [left|done].
  - right. exists r, kv. split; [by right|done].
Qed.

Lemma flatten_link_list_provenance (L : list LinkList)
    (acc : flat_record) K v :
  flatten_link_list L acc !! K = Some v →
  acc !! K = Some v ∨
  ∃ link record kv,
    link ∈ L ∧ record ∈ or_empty (records link) ∧
    kv ∈ or_empty (link_value record) ∧
    snakeToCamel (concatenatedKey (name link) kv.1) = K ∧ value_of kv.2 = v.
Proof.
  revert acc. induction L as [|link L IH]; intros acc Hl; [by left|].
  rewrite flatten_link_list_cons in Hl.
  destruct (IH _ Hl) as [Hacc|(l & r & kv & Hin & Hrest)].
  - destruct (flatten_records_provenance _ _ _ _ _ Hacc)
      as [Hacc'|(r & kv & Hr & Hrest)]; [by left|].
    right. exists link, r, kv. split; [left|done].
  - right. exists l, r, kv. split; [by right|done].
Qed.

End Provenance.

(** X10. The flattening invents nothing: every key of a returned record
    bound to a value is the normalised name of an own field of the
    primary entry at that index holding that value, or the normalised
    composite name of a field, holding that value, of a sub-record of the
    relationship expansion at that index. *)
Theorem flatten_values_come_from_fields result i flat K v :
  flattenEntryList result !! i = Some flat →
  flat !! K = Some v →
  ∃ entry,
    or_empty (entry_list result) !! i = Some entry ∧
    ((∃ kv, kv ∈ or_empty (name_value_list entry) ∧
            snakeToCamel kv.1 = K ∧ value_of kv.2 = v) ∨
     (∃ relationship link record kv,
        or_empty (relationship_list result) !! i = Some (Some relationship) ∧
        link ∈ or_empty (link_list relationship) ∧
        record ∈ or_empty (records link) ∧
        kv ∈ or_empty (link_value record) ∧
        snakeToCamel (concatenatedKey (name link) kv.1) = K ∧
        value_of kv.2 = v)).
Proof.
  rewrite flattenEntryList_lookup. intros Hflat HK.
  destruct (or_empty (entry_list result) !! i) as [entry|] eqn:Hentry;
    [|discriminate Hflat].
  injection Hflat as <-. exists entry. split; [reflexivity|].
  unfold flatten_entry in HK.
  destruct (or_empty (relationship_list result) !! i)
    as [[relationship|]|] eqn:Hrel.
  - destruct (flatten_link_list_provenance _ _ _ _ HK)
      as [Hown|(link & record & kv & Hl & Hr & Hkv & Hk & Hv)].
    + left. by apply flatten_name_values_provenance.
    + right. by exists relationship, link, record, kv.
  - left. by apply flatten_name_values_provenance.
  - left. by apply flatten_name_values_provenance.
Qed.

Lemma flatten_values_come_from_fields_witness :
  ∃ entry,
    or_empty (entry_list response_contacts) !! 0 = Some entry ∧
    ((∃ kv, kv ∈ or_empty (name_value_list entry) ∧
            snakeToCamel kv.1 = "contactsEmail1" ∧
            value_of kv.2 = JString "x@y.com") ∨
     (∃ relationship link record kv,
        or_empty (relationship_list response_contacts) !! 0
          = Some (Some relationship) ∧
        link ∈ or_empty (link_list relationship) ∧
        record ∈ or_empty (records link) ∧
        kv ∈ or_empty (link_value record) ∧
        snakeToCamel (concatenatedKey (name link) kv.1) = "contactsEmail1" ∧
        value_of kv.2 = JString "x@y.com")).
Proof.
  apply (flatten_values_come_from_fields response_contacts 0
           (flatten_entry (or_empty (relationship_list response_contacts)) 0
              (primary [field "id" "1"]))).
  - reflexivity.
  - by vm_compute.
Defined.

Section LastSubRecord.
Context (f : string → string).

Local Abbreviation assign_fields :=
  (foldl (λ (flatEntry : flat_record) (kv : string * option NameValue),
            <[f kv.1 := value_of kv.2]> flatEntry)).

(** What a loop leaves at a key it assigns does not depend on what was
    there before. *)
Lemma assign_hit_independent (l : name_values) (acc acc' : flat_record) K :
  (∃ kv, kv ∈ l ∧ f kv.1 = K) →
  assign_fields acc l !! K = assign_fields acc' l !! K.
Proof.
  induction l as [|kv l IH] using rev_ind.
  - intros (kv & Hin & _). by apply elem_of_nil in Hin.
  - intros (kv' & Hin & Hk). rewrite !foldl_app. cbn [foldl].
    destruct (decide (f kv.1 = K)) as [<-|Hne].
    + by rewrite !lookup_insert_eq.
    + rewrite !lookup_insert_ne by exact Hne. apply IH.
      apply elem_of_app in Hin as [Hin|Hin]; [by exists kv'|].
      apply list_elem_of_singleton in Hin as ->. by destruct Hne.
Qed.

End LastSubRecord.

Section LastSubRecordFacts.

Lemma link_value_hits_decide linkName (lv : name_values) K :
  link_value_hits linkName lv K ∨ ¬ link_value_hits linkName lv K.
Proof.
  destruct (decide (Exists (λ kv : string * option NameValue,
                              snakeToCamel (concatenatedKey linkName kv.1) = K)
                           lv)) as [Hex|Hno].
  - left. by apply Exists_exists in Hex.
  - right. intros Hhit. apply Hno. by apply Exists_exists.
Qed.

End LastSubRecordFacts.

(** X11. Of the sub-records of one link group only the last is kept when
    the earlier ones have no field that it lacks: the loop over the
    sub-records leaves the same record as the last sub-record alone. *)
Theorem flatten_records_last_subrecord linkName (R : list LinkRecord) record
    (acc : flat_record) :
  (∀ K, records_hit linkName R K →
        link_value_hits linkName (or_empty (link_value record)) K) →
  flatten_records linkName (R ++ [record]) acc
    = flatten_records linkName [record] acc.
Proof.
  intros Hcover. apply map_eq. intros K.
  rewrite flatten_records_app. rewrite !flatten_records_cons.
  change (flatten_records linkName [] ?x) with x.
  destruct (link_value_hits_decide linkName (or_empty (link_value record)) K)
    as [Hhit|Hno].
  - apply (assign_hit_independent
             (λ k, snakeToCamel (concatenatedKey linkName k))).
    exact Hhit.
  - rewrite !flatten_link_value_untouched by exact Hno.
    apply flatten_records_untouched. intros HR. apply Hno. by apply Hcover.
Qed.

Lemma flatten_records_last_subrecord_witness :
  flatten_records "contacts"
    [ subrecord [field "email1" "first@y.com"; field "id" "7"];
      subrecord [field "id" "8"; field "email1" "second@y.com"] ] ∅
  = {[ "contactsEmail1" := JString "second@y.com";
       "contactsId" := JString "8" ]}.
Proof.
  etrans.
  - apply (flatten_records_last_subrecord "contacts"
             [ subrecord [field "email1" "first@y.com"; field "id" "7"] ]
             (subrecord [field "id" "8"; field "email1" "second@y.com"]) ∅).
    intros K (r & Hr & kv & Hkv & HK).
    apply list_elem_of_singleton in Hr as ->. cbn in Hkv.
    apply elem_of_cons in Hkv as [->|Hkv].
    + exists (field "email1" "second@y.com").
      split; [cbn; right; left|exact HK].
    + apply list_elem_of_singleton in Hkv as ->.
      exists (field "id" "8"). split; [cbn; left|exact HK].
  - by vm_compute.
Defined.

(** X12. Entries of the relationship list beyond the last primary entry
    are never read. *)
Theorem flatten_ignores_surplus_relationships (entries : list Entry)
    (rl extra : list (option RelationshipEntry)) :
  (length entries ≤ length rl)%nat →
  flattenEntryList {| entry_list := Some entries;
                      relationship_list := Some (rl ++ extra) |}
    = flattenEntryList {| entry_list := Some entries;
                          relationship_list := Some rl |}.
Proof.
  intros Hlen. unfold flattenEntryList. cbn.
  apply imap_ext. intros i entry Hentry.
  unfold flatten_entry. rewrite lookup_app_l; [reflexivity|].
  apply lookup_lt_Some in Hentry. lia.
Qed.

Lemma flatten_ignores_surplus_relationships_witness :
  flattenEntryList
    {| entry_list := Some [ primary [field "id" "1"] ];
       relationship_list :=
         Some [ None;
                Some (expansion
                        [ link_group "contacts"
                            [ subrecord [field "email1" "x@y.com"] ] ]) ] |}
  = [ {[ "id" := JString "1" ]} ].
Proof.
  etrans.
  - apply (flatten_ignores_surplus_relationships
             [ primary [field "id" "1"] ] [ None ]). cbn. lia.
  - by vm_compute.
Defined.

(** ** Deep conversion, further *)

Import SetEntry Shapes.

Section EntriesFacts.
Context {A : Type}.

Lemma entries_set_fresh (k : string) (a : A) (l : list (string * A)) :
  k ∉ map fst l → entries_set k a l = l ++ [(k, a)].
Proof.
  induction l as [|[k' b] l IH]; intros Hk; [reflexivity|].
  cbn [entries_set]. cbn [map fst] in Hk.
  apply not_elem_of_cons in Hk as [Hne Hk].
  destruct (String.eqb k k') eqn:Heq.
  - apply String.eqb_eq in Heq. by destruct Hne.
  - cbn [app]. by rewrite IH.
Qed.

(** Assignments to keys that are new and distinct pile up in order. *)
Lemma foldl_entries_set_fresh {B : Type} (g : B → string) (v : B → A)
    (l : list B) (acc : list (string * A)) :
  NoDup (map fst acc ++ map g l) →
  foldl (λ acc x, entries_set (g x) (v x) acc) acc l
    = acc ++ map (λ x, (g x, v x)) l.
Proof.
  revert acc. induction l as [|x l IH]; intros acc Hnd.
  - cbn. by rewrite app_nil_r.
  - cbn [foldl map]. cbn [map] in Hnd.
    assert (Hx : g x ∉ map fst acc).
    { apply NoDup_app in Hnd as (_ & Hdisj & _).
      intros Hin. apply (Hdisj _ Hin). left. }
    rewrite (entries_set_fresh _ _ _ Hx), IH.
    + by rewrite <- app_assoc.
    + rewrite map_app. cbn [map fst]. rewrite <- app_assoc. exact Hnd.
Qed.

End EntriesFacts.

Section ObjectFacts.
Import Js.

Lemma obj_set_entries_set k v (l : list (string * jsval)) :
  obj_set k v l = entries_set k v l.
Proof.
  induction l as [|[k' b] l IH]; [reflexivity|].
  cbn [obj_set entries_set]. by rewrite IH.
Qed.

Lemma obj_get_set (K k : string) v (l : list (string * jsval)) :
  obj_get K (obj_set k v l)
    = if decide (K = k) then Some v else obj_get K l.
Proof.
  induction l as [|[k' b] l IH].
  - cbn. destruct (decide (K = k)) as [->|Hne].
    + by rewrite String.eqb_refl.
    + apply String.eqb_neq in Hne. by rewrite Hne.
  - cbn [obj_set]. destruct (String.eqb k k') eqn:Hkk'.
    + apply String.eqb_eq in Hkk' as <-. cbn [obj_get].
      destruct (decide (K = k)) as [->|Hne].
      * by rewrite String.eqb_refl.
      * apply String.eqb_neq in Hne. by rewrite Hne.
    + cbn [obj_get]. rewrite IH.
      destruct (String.eqb K k') eqn:HKk'; [|reflexivity].
      apply String.eqb_eq in HKk' as ->.
      destruct (decide (k' = k)) as [->|Hne]; [|reflexivity].
      by rewrite String.eqb_refl in Hkk'.
Qed.

Lemma obj_get_Some_elem (K : string) v (l : list (string * jsval)) :
  obj_get K l = Some v → (K, v) ∈ l.
Proof.
  induction l as [|[k' b] l IH]; [done|]. cbn [obj_get].
  destruct (String.eqb K k') eqn:Heq.
  - apply String.eqb_eq in Heq as ->. intros [= ->]. left.
  - intros H. right. by apply IH.
Qed.

Lemma obj_get_None_keys (K : string) (l : list (string * jsval)) :
  obj_get K l = None ↔ K ∉ map fst l.
Proof.
  induction l as [|[k' b] l IH].
  - split; [intros _ Hin; by apply elem_of_nil in Hin|done].
  - cbn [obj_get map fst]. rewrite not_elem_of_cons.
    destruct (String.eqb K k') eqn:Heq.
    + apply String.eqb_eq in Heq as ->. split; [done|]. by intros [? _].
    + apply String.eqb_neq in Heq. rewrite IH. tauto.
Qed.

End ObjectFacts.

Section ConvertObjectFacts.
Import Js DeepConverter.
Context (ck : string → string).

Local Abbreviation convert_all :=
  (foldl (λ (result : list (string * jsval)) (kv : string * jsval),
            obj_set (ck kv.1) (convertProperty ck kv.2) result)).

Lemma convert_all_fresh (props acc : list (string * jsval)) :
  NoDup (map fst acc ++ map (λ kv, ck kv.1) props) →
  convert_all acc props
    = acc ++ map (λ kv, (ck kv.1, convertProperty ck kv.2)) props.
Proof.
  intros Hnd.
  rewrite <- (foldl_entries_set_fresh (λ kv, ck kv.1)
                (λ kv, convertProperty ck kv.2) props acc Hnd).
  clear Hnd. revert acc.
  induction props as [|kv props IH]; intros acc; [reflexivity|].
  cbn [foldl]. by rewrite obj_set_entries_set, IH.
Qed.

Lemma convert_all_untouched (props acc : list (string * jsval)) K :
  (∀ kv, kv ∈ props → ck kv.1 ≠ K) →
  obj_get K (convert_all acc props) = obj_get K acc.
Proof.
  revert acc. induction props as [|kv props IH]; intros acc Hno;
    [reflexivity|].
  cbn [foldl]. rewrite IH by (intros kv' Hin; apply Hno; by right).
  rewrite obj_get_set. destruct (decide (K = ck kv.1)) as [->|]; [|done].
  exfalso. by apply (Hno kv); [left|].
Qed.

Lemma convert_all_provenance (props acc : list (string * jsval)) K w :
  obj_get K (convert_all acc props) = Some w →
  obj_get K acc = Some w ∨
  ∃ kv, kv ∈ props ∧ ck kv.1 = K ∧ convertProperty ck kv.2 = w.
Proof.
  revert acc. induction props as [|kv props IH]; intros acc Hget;
    [by left|].
  cbn [foldl] in Hget. destruct (IH _ Hget) as [Hacc|(kv' & Hin & Hrest)].
  - rewrite obj_get_set in Hacc.
    destruct (decide (K = ck kv.1)) as [->|]; [|by left].
    right. exists kv. split; [left|]. split; [reflexivity|congruence].
  - right. exists kv'. split; [by right|done].
Qed.

End ConvertObjectFacts.

Lemma convertObject_fresh_keys (ck : string → string) c
    (props : list (string * jsval)) :
  NoDup (map (λ kv, ck kv.1) props) →
  DeepConverter.convertObject ck (JObject c props)
    = JObject CtorObject
        (map (λ kv, (ck kv.1, DeepConverter.convertProperty ck kv.2)) props).
Proof.
  intros Hnd. rewrite convertObject_props. f_equal.
  by rewrite (convert_all_fresh ck props []).
Qed.

Lemma snakeToCamel_never_proto (s : string) : snakeToCamel s ≠ "__proto__".
Proof.
  intros Heq. pose proof (snakeToCamel_output_no_boundary s) as Hno.
  rewrite Heq in Hno. discriminate Hno.
Qed.

(** X13. On a record none of whose keys, at any depth, converts to
    [__proto__], [objectToSnakeCase] keeps the properties in their order,
    each under its converted key with its converted value, when no two
    keys convert to the same name. [snakeToCamel] converts no key of any
    value to [__proto__], and [objectToCamelCase] keeps the properties in
    their order on every record whose keys convert to different names. *)
Theorem convertObject_keeps_order (c : constructor_kind)
    (props : list (string * jsval)) :
  (no_proto_keys camelToSnake (JObject c props) = true →
   NoDup (map (λ kv, camelToSnake kv.1) props) →
   DeepConverter.objectToSnakeCase (JObject c props)
     = JObject CtorObject
         (map (λ kv, (camelToSnake kv.1,
                      DeepConverter.convertProperty camelToSnake kv.2))
              props)) ∧
  (∀ v, no_proto_keys snakeToCamel v = true) ∧
  (NoDup (map (λ kv, snakeToCamel kv.1) props) →
   DeepConverter.objectToCamelCase (JObject c props)
     = JObject CtorObject
         (map (λ kv, (snakeToCamel kv.1,
                      DeepConverter.convertProperty snakeToCamel kv.2))
              props)).
Proof.
  split; [|split].
  - intros _ Hnd. by apply convertObject_fresh_keys.
  - intros v.
    induction v as [| | b | n | s | items IH | c' ps IH]
      using jsval_nested_ind; try reflexivity.
    + cbn [no_proto_keys]. apply forallb_forall. intros x Hx.
      rewrite Forall_forall in IH. apply IH. by apply list_elem_of_In.
    + cbn [no_proto_keys]. apply forallb_forall. intros [k x] Hx.
      rewrite Forall_forall in IH.
      apply andb_true_iff. split.
      * apply negb_true_iff, String.eqb_neq, snakeToCamel_never_proto.
      * apply (IH (k, x)). by apply list_elem_of_In.
  - intros Hnd. by apply convertObject_fresh_keys.
Qed.

Lemma convertObject_keeps_order_witness :
  no_proto_keys camelToSnake
    (JObject CtorObject [("_Proto__", JNumber 1)]) = false ∧
  DeepConverter.objectToSnakeCase
    (JObject CtorObject
       [("firstName", JString "A"); ("id", JNumber 7);
        ("ownerInfo", JObject CtorObject [("lastName", JNull)])])
  = JObject CtorObject
      [("first_name", JString "A"); ("id", JNumber 7);
       ("owner_info", JObject CtorObject [("last_name", JNull)])].
Proof.
  split; [reflexivity|]. etrans.
  - apply (convertObject_keeps_order CtorObject
             [("firstName", JString "A"); ("id", JNumber 7);
              ("ownerInfo", JObject CtorObject [("lastName", JNull)])]).
    + reflexivity.
    + refine (bool_decide_unpack _ _). by vm_compute.
  - reflexivity.
Defined.

(** X14. On a record none of whose keys, at any depth, converts to
    [__proto__]: when several keys convert to the same name, the
    converted record has that name once, with the converted value of the
    last such property; and every property of the converted record is the
    conversion of a property of the input. *)
Theorem convertObject_last_write_wins (ck : string → string)
    (c : constructor_kind) (P1 : list (string * jsval)) k v
    (P2 : list (string * jsval)) :
  no_proto_keys ck (JObject c (P1 ++ (k, v) :: P2)) = true →
  (∀ kv, kv ∈ P2 → ck kv.1 ≠ ck k) →
  ∃ out,
    DeepConverter.convertObject ck (JObject c (P1 ++ (k, v) :: P2))
      = JObject CtorObject out ∧
    Js.obj_get (ck k) out = Some (DeepConverter.convertProperty ck v) ∧
    ∀ K w,
      Js.obj_get K out = Some w →
      K ≠ "__proto__" ∧
      ∃ kv, kv ∈ P1 ++ (k, v) :: P2 ∧ ck kv.1 = K ∧
            DeepConverter.convertProperty ck kv.2 = w.
Proof.
  intros Hproto Hno. eexists. split; [apply convertObject_props|]. split.
  - rewrite foldl_app. cbn [foldl].
    rewrite (convert_all_untouched ck P2 _ (ck k) Hno).
    rewrite obj_get_set. cbn [fst snd].
    destruct (decide (ck k = ck k)) as [_|Hne]; [reflexivity|by destruct Hne].
  - intros K w Hget.
    destruct (convert_all_provenance ck _ _ _ _ Hget)
      as [Hnil|([k' x'] & Hin & HK & Hw)]; [discriminate Hnil|].
    split; [|by exists (k', x')].
    cbn [no_proto_keys] in Hproto. rewrite forallb_forall in Hproto.
    specialize (Hproto (k', x') (proj1 (list_elem_of_In _ _) Hin)).
    cbn in Hproto. apply andb_true_iff in Hproto as [Hk' _].
    apply negb_true_iff, String.eqb_neq in Hk'. cbn [fst] in HK.
    by rewrite <- HK.
Qed.

Lemma convertObject_last_write_wins_witness :
  ∃ out,
    DeepConverter.objectToSnakeCase
      (JObject CtorObject [("aB", JNumber 1); ("a_b", JNumber 2)])
      = JObject CtorObject out ∧
    Js.obj_get "a_b" out = Some (JNumber 2) ∧
    out = [("a_b", JNumber 2)].
Proof.
  destruct (convertObject_last_write_wins camelToSnake CtorObject
              [("aB", JNumber 1)] "a_b" (JNumber 2) [])
    as (out & Hout & Hget & _).
  { reflexivity. }
  { intros kv Hin. by apply elem_of_nil in Hin. }
  exists out. split; [exact Hout|]. split; [exact Hget|].
  vm_compute in Hout. by injection Hout as <-.
Defined.

Section DeepRoundTrip.
Import Js DeepConverter.

Lemma camel_record_unfold c (props : list (string * jsval)) :
  camel_record (JObject c props)
    = match c with
      | CtorObject =>
          bool_decide (NoDup (map fst props)) &&
          forallb (λ kv, no_underscore kv.1 && camel_property kv.2) props
      | CtorOther => false
      end.
Proof.
  destruct c; [|reflexivity]. cbn [camel_record]. f_equal.
  induction props as [|[k x] props IH]; [reflexivity|].
  cbn [forallb]. by rewrite IH.
Qed.

Lemma convertObject_is_object ck v :
  ∃ out, convertObject ck v = JObject CtorObject out.
Proof. destruct v; cbn [convertObject]; eauto. Qed.

Lemma camel_keys_roundtrip (props : list (string * jsval)) :
  forallb (λ kv, no_underscore kv.1 && camel_property kv.2) props = true →
  map (λ kv, snakeToCamel (camelToSnake kv.1)) props = map fst props.
Proof.
  induction props as [|[k x] props IH]; [reflexivity|].
  cbn [forallb map fst]. intros [[Hk _]%andb_true_iff Hrest]%andb_true_iff.
  by rewrite (snakeToCamel_camelToSnake_underscore_free k Hk), IH.
Qed.

Lemma camel_keys_snake_NoDup (props : list (string * jsval)) :
  forallb (λ kv, no_underscore kv.1 && camel_property kv.2) props = true →
  NoDup (map fst props) →
  NoDup (map (λ kv, camelToSnake kv.1) props).
Proof.
  intros Hall Hnd.
  apply (NoDup_fmap_1 snakeToCamel).
  change (snakeToCamel <$> map (λ kv : string * jsval, camelToSnake kv.1) props)
    with (map snakeToCamel (map (λ kv : string * jsval, camelToSnake kv.1) props)).
  rewrite map_map. by rewrite camel_keys_roundtrip.
Qed.

Lemma camel_keys_no_constructor (props : list (string * jsval)) :
  forallb (λ kv, no_underscore kv.1 && camel_property kv.2) props = true →
  obj_get "constructor" props = None →
  obj_get "constructor"
    (map (λ kv, (camelToSnake kv.1, convertProperty camelToSnake kv.2)) props)
    = None.
Proof.
  intros Hall Hnone. apply obj_get_None_keys.
  apply obj_get_None_keys in Hnone. intros Hin. apply Hnone.
  rewrite map_map in Hin. cbn [fst] in Hin.
  apply list_elem_of_fmap in Hin as ([k x] & Hk & Hin). cbn [fst] in Hk.
  assert (Hfree : no_underscore k = true).
  { rewrite forallb_forall in Hall.
    specialize (Hall (k, x) (proj1 (list_elem_of_In _ _) Hin)).
    by apply andb_true_iff in Hall as [Hfree _]. }
  assert (k = "constructor") as ->.
  { rewrite <- (snakeToCamel_camelToSnake_underscore_free k Hfree).
    by rewrite <- Hk. }
  apply list_elem_of_fmap. by exists ("constructor", x).
Qed.

End DeepRoundTrip.

Section DeepRoundTripMain.
Import Js DeepConverter.

Lemma camel_record_snake_then_camel c (props : list (string * jsval)) :
  camel_record (JObject c props) = true →
  Forall (λ kv : string * jsval,
            camel_property kv.2 = true →
            convertProperty snakeToCamel (convertProperty camelToSnake kv.2)
              = kv.2) props →
  objectToCamelCase (objectToSnakeCase (JObject c props)) = JObject c props.
Proof.
  rewrite camel_record_unfold. destruct c; [|discriminate].
  intros [Hnd Hall]%andb_true_iff IH. apply bool_decide_eq_true in Hnd.
  pose proof (convertObject_fresh_keys camelToSnake CtorObject props) as Hsnake.
  unfold objectToSnakeCase, objectToCamelCase.
  rewrite (Hsnake (camel_keys_snake_NoDup props Hall Hnd)).
  pose proof (convertObject_fresh_keys snakeToCamel CtorObject
                (map (λ kv, (camelToSnake kv.1,
                             convertProperty camelToSnake kv.2)) props))
    as Hcamel.
  rewrite Hcamel.
  - f_equal. rewrite map_map. cbn [fst snd].
    clear Hsnake Hcamel Hnd.
    induction IH as [|[k x] props Hx _ IHprops]; [reflexivity|].
    cbn [forallb fst snd] in Hall.
    apply andb_true_iff in Hall as [[Hk Hp]%andb_true_iff Hrest].
    cbn [map fst snd].
    rewrite (snakeToCamel_camelToSnake_underscore_free k Hk).
    cbn [snd] in Hx. rewrite (Hx Hp). f_equal. by apply IHprops.
  - rewrite map_map. cbn [fst]. by rewrite camel_keys_roundtrip.
Qed.

Lemma camel_shapes_roundtrip (v : jsval) :
  (camel_record v = true → objectToCamelCase (objectToSnakeCase v) = v) ∧
  (camel_property v = true →
   convertProperty snakeToCamel (convertProperty camelToSnake v) = v).
Proof.
  induction v as [| | b | n | s | items IH | c props IH]
    using jsval_nested_ind;
    try (split; [intros H; discriminate H|reflexivity]).
  - split; [intros H; discriminate H|].
    cbn [camel_property convertProperty]. intros Hitems. f_equal.
    rewrite map_map.
    induction IH as [|item items Hitem _ IHitems]; [reflexivity|].
    cbn [forallb] in Hitems. apply andb_true_iff in Hitems as [Hi Hrest].
    cbn [map]. rewrite (IHitems Hrest). f_equal.
    destruct item as [| | | | | |c' ps]; try reflexivity; [discriminate Hi|].
    cbn [is_nonnull_object].
    destruct (convertObject_is_object camelToSnake (JObject c' ps))
      as [out Hout].
    rewrite Hout. cbn [is_nonnull_object]. rewrite <- Hout.
    by apply Hitem.
  - assert (Hrecord : camel_record (JObject c props) = true →
                      objectToCamelCase (objectToSnakeCase (JObject c props))
                        = JObject c props).
    { intros Hrec. apply camel_record_snake_then_camel; [exact Hrec|].
      eapply Forall_impl; [exact IH|]. by intros kv [_ Hkv]. }
    split; [exact Hrecord|].
    cbn [camel_property]. intros Hprop.
    cbn [convertProperty].
    destruct (constructor_is_Object (JObject c props)) eqn:Hplain.
    + cbn [negb orb] in Hprop.
      pose proof Hprop as Hrec. rewrite camel_record_unfold in Hrec.
      destruct c; [|discriminate Hrec].
      apply andb_true_iff in Hrec as [Hnd Hall].
      apply bool_decide_eq_true in Hnd.
      pose proof (convertObject_fresh_keys camelToSnake CtorObject props
                    (camel_keys_snake_NoDup props Hall Hnd)) as Hout.
      rewrite Hout.
      assert (Hplain' :
        constructor_is_Object
          (JObject CtorObject
             (map (λ kv, (camelToSnake kv.1,
                          convertProperty camelToSnake kv.2)) props)) = true).
      { cbn [constructor_is_Object] in Hplain |- *.
        destruct (obj_get "constructor" props) eqn:Hget;
          [discriminate Hplain|].
        by rewrite (camel_keys_no_constructor props Hall Hget). }
      cbn [convertProperty]. rewrite Hplain'. rewrite <- Hout.
      by apply Hrecord.
    + cbn [convertProperty]. by rewrite Hplain.
Qed.

End DeepRoundTripMain.

(** X15. The deep conversions are inverse to each other on records in the
    internal convention: a plain record with distinct underscore-free
    keys, whose sequences hold scalars and such records and whose plain
    properties are such records, comes back from [objectToSnakeCase] then
    [objectToCamelCase] as it was. *)
Theorem objectToCamelCase_objectToSnakeCase_roundtrip (v : jsval) :
  camel_record v = true →
  DeepConverter.objectToCamelCase (DeepConverter.objectToSnakeCase v) = v.
Proof. apply camel_shapes_roundtrip. Qed.

Lemma objectToCamelCase_objectToSnakeCase_roundtrip_witness :
  DeepConverter.objectToSnakeCase
    (JObject CtorObject
       [("firstName", JString "A");
        ("phoneList", JArray [JString "1";
                              JObject CtorObject [("areaCode", JNumber 51)]]);
        ("seenAt", JObject CtorOther []);
        ("ownerInfo", JObject CtorObject [("lastName", JNull)])])
  = JObject CtorObject
      [("first_name", JString "A");
       ("phone_list", JArray [JString "1";
                              JObject CtorObject [("area_code", JNumber 51)]]);
       ("seen_at", JObject CtorOther []);
       ("owner_info", JObject CtorObject [("last_name", JNull)])] ∧
  DeepConverter.objectToCamelCase
    (DeepConverter.objectToSnakeCase
       (JObject CtorObject
          [("firstName", JString "A");
           ("phoneList", JArray [JString "1";
                                 JObject CtorObject [("areaCode", JNumber 51)]]);
           ("seenAt", JObject CtorOther []);
           ("ownerInfo", JObject CtorObject [("lastName", JNull)])]))
  = JObject CtorObject
      [("firstName", JString "A");
       ("phoneList", JArray [JString "1";
                             JObject CtorObject [("areaCode", JNumber 51)]]);
       ("seenAt", JObject CtorOther []);
       ("ownerInfo", JObject CtorObject [("lastName", JNull)])].
Proof.
  split; [reflexivity|].
  apply objectToCamelCase_objectToSnakeCase_roundtrip. by vm_compute.
Defined.

(** ** Setting an entry and reading it back *)

Section SetThenFlatten.
Import Js DeepConverter.

Lemma scalar_convertProperty ck (x : jsval) :
  is_scalar x = true → convertProperty ck x = x.
Proof. by destruct x. Qed.

Lemma scalar_props_snake_NoDup (props : list (string * jsval)) :
  Forall (λ kv : string * jsval,
            no_underscore kv.1 = true ∧ is_scalar kv.2 = true) props →
  NoDup (map fst props) →
  NoDup (map (λ kv, camelToSnake kv.1) props).
Proof.
  intros Hall Hnd. apply (NoDup_fmap_1 snakeToCamel).
  change (snakeToCamel <$> map (λ kv : string * jsval, camelToSnake kv.1) props)
    with (map snakeToCamel (map (λ kv : string * jsval, camelToSnake kv.1) props)).
  rewrite map_map.
  replace (map (λ kv : string * jsval, snakeToCamel (camelToSnake kv.1)) props)
    with (map fst props); [exact Hnd|].
  clear Hnd. induction Hall as [|[k x] props [Hk _] _ IH]; [reflexivity|].
  cbn [map fst] in *.
  by rewrite (snakeToCamel_camelToSnake_underscore_free k Hk), IH.
Qed.

Lemma parseNameValueList_no_proto (l : list (string * jsval)) acc :
  "__proto__" ∉ map fst l →
  foldl (λ parsed kv,
           if String.eqb (fst kv) "__proto__" then parsed
           else entries_set (fst kv)
                  {| nv_name := fst kv; value := snd kv |} parsed) acc l
  = foldl (λ parsed kv,
             entries_set (fst kv)
               {| nv_name := fst kv; value := snd kv |} parsed) acc l.
Proof.
  revert acc. induction l as [|[k x] l IH]; intros acc Hno; [reflexivity|].
  cbn [map fst] in Hno. apply not_elem_of_cons in Hno as [Hk Hl].
  cbn [foldl fst snd].
  destruct (String.eqb_spec k "__proto__") as [->|_]; [by destruct Hk|].
  by apply IH.
Qed.

Lemma parseNameValueList_fresh (l : list (string * jsval)) :
  NoDup (map fst l) →
  "__proto__" ∉ map fst l →
  parseNameValueList l
    = map (λ kv, (kv.1, {| nv_name := kv.1; value := kv.2 |})) l.
Proof.
  intros Hnd Hno. unfold parseNameValueList.
  rewrite (parseNameValueList_no_proto l [] Hno).
  by rewrite (foldl_entries_set_fresh fst
                (λ kv, {| nv_name := kv.1; value := kv.2 |}) l []).
Qed.

Lemma camelToSnake_underscore_free_no_proto (k : string) :
  no_underscore k = true → camelToSnake k ≠ "__proto__".
Proof.
  intros Hk Heq.
  pose proof (snakeToCamel_camelToSnake_underscore_free k Hk) as Hback.
  rewrite Heq in Hback. rewrite <- Hback in Hk. discriminate Hk.
Qed.

Lemma setEntry_name_value_list_scalars c (props : list (string * jsval)) :
  NoDup (map fst props) →
  Forall (λ kv : string * jsval,
            no_underscore kv.1 = true ∧ is_scalar kv.2 = true) props →
  setEntry_name_value_list (JObject c props)
    = map (λ kv, (camelToSnake kv.1,
                  {| nv_name := camelToSnake kv.1; value := kv.2 |})) props.
Proof.
  intros Hnd Hall. unfold setEntry_name_value_list, objectToSnakeCase.
  pose proof (scalar_props_snake_NoDup props Hall Hnd) as Hsnake.
  rewrite (convertObject_fresh_keys camelToSnake c props Hsnake).
  rewrite parseNameValueList_fresh.
  - rewrite map_map. cbn [fst snd]. clear Hnd Hsnake.
    induction Hall as [|[k x] props [_ Hx] _ IH]; [reflexivity|].
    cbn [map fst snd] in *. by rewrite IH, (scalar_convertProperty _ x Hx).
  - rewrite map_map. exact Hsnake.
  - rewrite map_map. cbn [fst]. clear Hnd Hsnake.
    induction Hall as [|[k x] props [Hk _] _ IH]; [apply not_elem_of_nil|].
    cbn [map fst]. apply not_elem_of_cons. split; [|exact IH].
    intros Heq. by apply (camelToSnake_underscore_free_no_proto k Hk).
Qed.

End SetThenFlatten.

(** X16. What [setEntry] sends is what [flattenEntryList] gives back: for
    a record with distinct underscore-free keys and scalar values, the
    name-value list built by [objectToSnakeCase] and
    [parseNameValueList] carries each value under the external name of
    its key, and flattening a response that returns that list yields one
    record binding exactly the properties that were set. *)
Theorem setEntry_then_flatten_roundtrip c (props : list (string * jsval)) :
  NoDup (map fst props) →
  Forall (λ kv : string * jsval,
            no_underscore kv.1 = true ∧ is_scalar kv.2 = true) props →
  setEntry_name_value_list (JObject c props)
    = map (λ kv, (camelToSnake kv.1,
                  {| nv_name := camelToSnake kv.1; value := kv.2 |})) props ∧
  ∃ flat,
    flattenEntryList
      {| entry_list :=
           Some [ stored_entry (setEntry_name_value_list (JObject c props)) ];
         relationship_list := None |} = [flat] ∧
    ∀ k x, flat !! k = Some x ↔ (k, x) ∈ props.
Proof.
  intros Hnd Hall.
  pose proof (setEntry_name_value_list_scalars c props Hnd Hall) as Hsent.
  split; [exact Hsent|].
  exists (flatten_name_values
            (map (λ kv : string * jsval,
                    (camelToSnake kv.1,
                     Some {| nv_name := camelToSnake kv.1; value := kv.2 |}))
                 props) ∅).
  split.
  { rewrite Hsent. unfold flattenEntryList, stored_entry.
    cbn [entry_list relationship_list or_empty default imap].
    unfold flatten_entry.
    cbn [name_value_list or_empty default lookup list_lookup].
    by rewrite map_map. }
  intros k x. split.
  - intros Hget.
    apply flatten_name_values_provenance in Hget as (kv & Hin & Hk & Hv).
    apply list_elem_of_fmap in Hin as ([k' x'] & -> & Hin).
    cbn [fst snd value_of value] in Hk, Hv. subst x'.
    rewrite Forall_forall in Hall. destruct (Hall _ Hin) as [Hfree _].
    cbn [fst] in Hfree.
    by rewrite (snakeToCamel_camelToSnake_underscore_free k' Hfree) in Hk;
      subst k'.
  - intros Hin.
    apply list_elem_of_split in Hin as (P1 & P2 & ->).
    rewrite map_app. cbn [map fst snd].
    assert (Hk : no_underscore k = true).
    { rewrite Forall_forall in Hall.
      apply (Hall (k, x)). apply elem_of_app. right. left. }
    rewrite <- (snakeToCamel_camelToSnake_underscore_free k Hk) at 1.
    rewrite flatten_name_values_last; [reflexivity|].
    intros (kv & Hkv & Heq).
    apply list_elem_of_fmap in Hkv as ([k' x'] & -> & Hin').
    cbn [fst] in Heq.
    assert (Hk' : no_underscore k' = true).
    { rewrite Forall_forall in Hall.
      apply (Hall (k', x')). apply elem_of_app. right. by right. }
    rewrite (snakeToCamel_camelToSnake_underscore_free k Hk),
            (snakeToCamel_camelToSnake_underscore_free k' Hk') in Heq.
    subst k'. rewrite map_app in Hnd. cbn [map fst] in Hnd.
    apply NoDup_app in Hnd as (_ & _ & Hnd).
    apply NoDup_cons in Hnd as [Hnotin _]. apply Hnotin.
    apply list_elem_of_fmap. by exists (k, x').
Qed.

Lemma setEntry_then_flatten_roundtrip_witness :
  setEntry_name_value_list
    (JObject CtorObject [("firstName", JString "A"); ("docNumber", JNumber 7)])
  = [ ("first_name", {| nv_name := "first_name"; value := JString "A" |});
      ("doc_number", {| nv_name := "doc_number"; value := JNumber 7 |}) ] ∧
  ∃ flat,
    flattenEntryList
      {| entry_list :=
           Some [ stored_entry
                    (setEntry_name_value_list
                       (JObject CtorObject
                          [("firstName", JString "A");
                           ("docNumber", JNumber 7)])) ];
         relationship_list := None |} = [flat] ∧
    flat !! "firstName" = Some (JString "A") ∧
    flat !! "docNumber" = Some (JNumber 7) ∧
    flat !! "first_name" = None.
Proof.
  destruct (setEntry_then_flatten_roundtrip CtorObject
              [("firstName", JString "A"); ("docNumber", JNumber 7)])
    as (Hsent & flat & Hflat & Hget).
  - refine (bool_decide_unpack _ _). by vm_compute.
  - repeat constructor.
  - split; [exact Hsent|]. exists flat. split; [exact Hflat|].
    split; [apply Hget; left|].
    split; [apply Hget; right; left|].
    destruct (flat !! "first_name") as [x|] eqn:Hx; [|reflexivity].
    apply Hget in Hx. exfalso.
    apply elem_of_cons in Hx as [[=]|Hx].
    apply list_elem_of_singleton in Hx. discriminate Hx.
Defined.


Section ParseNameValueList.
Context {A : Type}.

Lemma entries_set_elem_inv key (a : A) (l : list (string * A)) kv :
  kv ∈ entries_set key a l → kv = (key, a) ∨ kv ∈ l.
Proof.
  induction l as [|[k b] l IH]; cbn [entries_set].
  - intros ->%list_elem_of_singleton. by left.
  - destruct (String.eqb key k).
    + intros [->|Hin]%elem_of_cons; [by left|]. right. by right.
    + intros [->|Hin]%elem_of_cons; [right; left|].
      destruct (IH Hin) as [->|Hin']; [by left|]. right. by right.
Qed.

Lemma entries_set_keys key (a : A) (l : list (string * A)) :
  map fst (entries_set key a l)
    = if decide (key ∈ map fst l) then map fst l else map fst l ++ [key].
Proof.
  induction l as [|[k b] l IH]; cbn [entries_set map fst].
  - destruct (decide (key ∈ [])) as [Hin|_]; [|reflexivity].
    by apply elem_of_nil in Hin.
  - destruct (String.eqb key k) eqn:Heq.
    + apply String.eqb_eq in Heq as ->. cbn [map fst].
      destruct (decide (k ∈ k :: map fst l)) as [_|Hno]; [reflexivity|].
      destruct Hno. left.
    + apply String.eqb_neq in Heq. cbn [map fst]. rewrite IH.
      destruct (decide (key ∈ map fst l)) as [Hin|Hno].
      * destruct (decide (key ∈ k :: map fst l)) as [_|Hno];
          [reflexivity|]. destruct Hno. by right.
      * destruct (decide (key ∈ k :: map fst l)) as [Hin|_];
          [|reflexivity].
        apply elem_of_cons in Hin as [->|Hin]; [by destruct Heq|].
        by destruct Hno.
Qed.

End ParseNameValueList.

(** X17. [parseNameValueList] wraps every value under its own key: the
    list it returns has each key of its argument other than [__proto__]
    exactly once and no other key, and each entry is named by its key and
    holds a value the argument has under that key. *)
Theorem parseNameValueList_names_values (l : list (string * jsval)) :
  NoDup (map fst (parseNameValueList l)) ∧
  (∀ key, key ∈ map fst (parseNameValueList l)
          ↔ key ∈ map fst l ∧ key ≠ "__proto__") ∧
  (∀ key nv,
     (key, nv) ∈ parseNameValueList l →
     nv_name nv = key ∧ (key, value nv) ∈ l).
Proof.
  induction l as [|[k x] l (IHnd & IHkeys & IHnv)] using rev_ind.
  - split; [constructor|]. split.
    + intros key. split; [intros Hin|intros [Hin _]];
        by apply elem_of_nil in Hin.
    + intros key nv Hin. by apply elem_of_nil in Hin.
  - unfold parseNameValueList in *. rewrite foldl_app. cbn [foldl fst snd].
    destruct (String.eqb_spec k "__proto__") as [->|Hk].
    + split; [exact IHnd|]. split.
      * intros key. rewrite IHkeys, map_app. cbn [map fst].
        rewrite elem_of_app, list_elem_of_singleton. split.
        -- intros [Hin Hne]. split; [by left|exact Hne].
        -- intros [[Hin| ->] Hne]; [by split|by destruct Hne].
      * intros key nv Hin. destruct (IHnv key nv Hin) as [Hname Hval].
        split; [exact Hname|]. apply elem_of_app. by left.
    + split; [|split].
      * rewrite entries_set_keys. case_decide; [exact IHnd|].
        apply NoDup_app. split; [exact IHnd|].
        split; [|apply NoDup_singleton].
        intros key Hin ->%list_elem_of_singleton. done.
      * intros key. rewrite entries_set_keys, map_app. cbn [map fst].
        rewrite elem_of_app, list_elem_of_singleton.
        case_decide as Hin.
        -- rewrite IHkeys. split.
           ++ intros [Hkey Hne]. split; [by left|exact Hne].
           ++ intros [[Hkey| ->] Hne]; [by split|].
              by apply IHkeys in Hin.
        -- rewrite elem_of_app, list_elem_of_singleton, IHkeys. split.
           ++ intros [[Hkey Hne]| ->]; [by split; [left|]|].
              split; [by right|exact Hk].
           ++ intros [[Hkey| ->] Hne]; [left; by split|by right].
      * intros key nv [[= -> ->]|Hin]%entries_set_elem_inv.
        -- cbn. split; [reflexivity|]. apply elem_of_app. right. left.
        -- destruct (IHnv key nv Hin) as [Hname Hval].
           split; [exact Hname|]. apply elem_of_app. by left.
Qed.

(** ** The session *)

Section SessionFacts.
Import Session.
Context (config_username config_password config_applicationName : string).
Context (md5Hash trim : string → string).
Context (remote : list request_record → reply).

Local Abbreviation getToken' :=
  (getToken config_username config_password config_applicationName
     md5Hash trim remote).
Local Abbreviation loginArgs' :=
  (loginArgs config_username config_password config_applicationName
     md5Hash trim).
Local Abbreviation call' :=
  (call config_username config_password config_applicationName
     md5Hash trim remote).

Ltac conjs := repeat match goal with |- _ ∧ _ => split end.

Ltac run :=
  unfold bind, try_catch, ret, throw, lift, read_token, read_userInfo,
    write_token, write_userInfo, clearToken, request; cbn.

Lemma getToken_cached s :
  truthy (token s) = true → getToken' s = (Ok (token s), s).
Proof. intros Ht. unfold getToken. run. by rewrite Ht. Qed.

Lemma getToken_login s :
  truthy (token s) = false →
  let r := getToken' s in
  sent r.2 = sent s ++ [ {| method := "login"; args := loginArgs' |} ] ∧
  match r.1 with
  | Ok t =>
      truthy t = true ∧ token r.2 = t ∧ userInfo r.2 ≠ None ∧
      ∃ response, remote (sent r.2) = Reply response ∧ t = get response "id"
  | Exn e =>
      token r.2 = JNull ∧ userInfo r.2 = None ∧
      ∀ message status, e ≠ AuthenticationError message status
  end.
Proof.
  intros Ht. unfold getToken. run. rewrite Ht.
  match goal with
  | |- context [remote ?l] =>
      destruct (remote l) as [response|message responseData] eqn:Hreply
  end; cbn; [|by conjs].
  destruct (is_nullish response) eqn:Hnull; cbn; [by conjs|].
  unfold read_login_value.
  assert (Hor : or_else (get response "id") JNull
                = if truthy (get response "id") then get response "id"
                  else JNull) by reflexivity.
  rewrite !Hor. clear Hor.
  destruct (is_nullish (get response "name_value_list")); cbn.
  - destruct (truthy (get response "id")) eqn:Hid; cbn.
    + rewrite Hid. cbn. conjs; try done. by exists response.
    + by conjs.
  - repeat (match goal with
            | |- context [is_nullish (get (get response "name_value_list") ?k)] =>
                destruct (is_nullish (get (get response "name_value_list") k));
                cbn; [by conjs|]
            end).
    destruct (truthy (get response "id")) eqn:Hid; cbn.
    + rewrite Hid. cbn. conjs; try done. by exists response.
    + by conjs.
Qed.

Local Abbreviation ensure_token' :=
  (ensure_token config_username config_password config_applicationName
     md5Hash trim remote).
Local Abbreviation checked_request' := (checked_request remote).
Local Abbreviation retry' :=
  (retry config_username config_password config_applicationName
     md5Hash trim remote).
Local Abbreviation getEntryListRaw' :=
  (getEntryListRaw config_username config_password config_applicationName
     md5Hash trim remote).
Local Abbreviation setEntry' :=
  (setEntry config_username config_password config_applicationName
     md5Hash trim remote).

Ltac methods :=
  repeat match goal with |- Forall _ _ => constructor end; cbn; auto.


Lemma getToken_summary s :
  let r := getToken' s in
  (consistent s → consistent r.2) ∧
  (∃ more, sent r.2 = sent s ++ more ∧ (length more ≤ 1)%nat ∧
           Forall (λ q, method q = "login") more) ∧
  match r.1 with
  | Ok t => truthy t = true ∧ token r.2 = t
  | Exn e =>
      token r.2 = JNull ∧ userInfo r.2 = None ∧
      ∀ message status, e ≠ AuthenticationError message status
  end.
Proof.
  destruct (truthy (token s)) eqn:Ht.
  - rewrite (getToken_cached s Ht). cbn.
    split; [tauto|]. split; [|done].
    exists []. rewrite app_nil_r. split; [done|]. split; [cbn; lia|constructor].
  - pose proof (getToken_login s Ht) as [Hsent Hr].
    cbn zeta in *. destruct (getToken' s) as [[t|e] s1]; cbn in *.
    + destruct Hr as (Htt & Htok & Hu & _).
      split; [intros _; right; by rewrite Htok|].
      split; [|done]. eexists. split; [exact Hsent|]. split; [cbn; lia|].
      by repeat constructor.
    + destruct Hr as (Htok & Hu & Hne).
      split; [intros _; by left|].
      split; [|done]. eexists. split; [exact Hsent|]. split; [cbn; lia|].
      by repeat constructor.
Qed.

Lemma checked_request_summary m ca s :
  let r := checked_request' m ca s in
  sent r.2 = sent s ++ [ {| method := m; args := ca |} ] ∧
  token r.2 = token s ∧ userInfo r.2 = userInfo s ∧
  match r.1 with
  | Ok d => isApiErrorResponse d = false ∧ remote (sent r.2) = Reply d
  | Exn (AuthenticationError _ status) =>
      status = 401%Z ∧
      ∃ d, remote (sent r.2) = Reply d ∧ isApiErrorResponse d = true ∧
           is_invalid_session d = true
  | Exn _ => True
  end.
Proof.
  unfold checked_request. run.
  destruct (remote _) as [d|message responseData] eqn:Hreply; cbn;
    [|done].
  destruct (isApiErrorResponse d) eqn:Herr; cbn; [|done].
  destruct (is_invalid_session d) eqn:Hinv; cbn; [|done].
  conjs; try done. by exists d.
Qed.

Lemma retry_summary m ca s :
  let r := retry' m ca s in
  consistent r.2 ∧
  (∃ more, sent r.2 = sent s ++ more ∧ (length more ≤ 2)%nat ∧
           Forall (λ q, method q = "login" ∨ method q = m) more) ∧
  match r.1 with
  | Ok d =>
      isApiErrorResponse d = false ∧ remote (sent r.2) = Reply d ∧
      ∃ callArgs, last (sent r.2) = Some {| method := m; args := callArgs |}
  | Exn e => ∀ message status, e ≠ AuthenticationError message status
  end.
Proof.
  unfold retry.
  cbv beta iota zeta delta [bind try_catch ret throw lift read_token
    write_token write_userInfo clearToken].
  cbn [token userInfo sent].
  set (s0 := {| token := JNull; userInfo := None; sent := sent s |}).
  assert (Hs0 : truthy (token s0) = false) by reflexivity.
  pose proof (getToken_login s0 Hs0) as [Hsent Hr]. cbn zeta in Hsent, Hr.
  destruct (getToken' s0) as [[t|e] s1]; cbn [fst snd] in *.
  - destruct Hr as (Htt & Htok & Hu & _).
    unfold request. cbn [token userInfo sent].
    destruct (remote _) as [d|message responseData] eqn:Hreply;
      cbn [fst snd token userInfo sent].
    + destruct (isApiErrorResponse d) eqn:Herr; cbn [fst snd token userInfo sent].
      * split; [right; by rewrite Htok|].
        split; [|done]. eexists. rewrite Hsent. cbn [sent s0].
        rewrite <- app_assoc. split; [reflexivity|].
        split; [cbn; lia|]. methods.
      * split; [right; by rewrite Htok|].
        split.
        { eexists. rewrite Hsent. cbn [sent s0].
          rewrite <- app_assoc. split; [reflexivity|].
          split; [cbn; lia|]. methods. }
        split; [exact Herr|]. split; [exact Hreply|].
        eexists. by rewrite last_snoc.
    + split; [right; by rewrite Htok|].
      split; [|done]. eexists. rewrite Hsent. cbn [sent s0].
      rewrite <- app_assoc. split; [reflexivity|].
      split; [cbn; lia|]. methods.
  - destruct Hr as (Htok & Hu & Hne).
    split; [by left|]. split; [|exact Hne].
    eexists. rewrite Hsent. cbn [sent s0]. split; [reflexivity|].
    split; [cbn; lia|]. methods.
Qed.

Lemma consistent_same s s' :
  token s' = token s → userInfo s' = userInfo s →
  consistent s → consistent s'.
Proof. unfold consistent. by intros -> ->. Qed.

Lemma call_after_token m a s1 :
  let ca := spread [("session", token s1)] a in
  let r :=
    try_catch (checked_request' m ca)
      (λ error,
         match error with
         | AuthenticationError _ status =>
             if (status =? 401)%Z then retry' m ca else throw error
         | _ => throw error
         end) s1 in
  (consistent s1 → consistent r.2) ∧
  (∃ more, sent r.2 = sent s1 ++ more ∧ (length more ≤ 3)%nat ∧
           Forall (λ q, method q = "login" ∨ method q = m) more) ∧
  match r.1 with
  | Ok d =>
      isApiErrorResponse d = false ∧ remote (sent r.2) = Reply d ∧
      ∃ callArgs, last (sent r.2) = Some {| method := m; args := callArgs |}
  | Exn e => ∀ message status, e ≠ AuthenticationError message status
  end.
Proof.
  intros ca. unfold try_catch.
  pose proof (checked_request_summary m ca s1) as (Hsent & Htok & Hu & Hr).
  cbn zeta in *.
  destruct (checked_request' m ca s1) as [[d|e] s2]; cbn [fst snd] in *.
  - split; [by apply consistent_same|].
    split; [eexists; split; [exact Hsent|]; split; [cbn; lia|methods]|].
    destruct Hr as [Herr Hreply]. conjs; try done.
    eexists. by rewrite Hsent, last_snoc.
  - destruct e as [msg rd| |em|n dsc|msg status|];
      try (split; [by apply consistent_same|];
           split; [eexists; split; [exact Hsent|]; split; [cbn; lia|methods]|];
           done).
    destruct Hr as [-> _]. cbn [Z.eqb Pos.eqb].
    pose proof (retry_summary m ca s2) as (Hc & (more & Hmore & Hlen & Hms) & Hres).
    cbn zeta in *.
    split; [intros _; exact Hc|].
    split; [|exact Hres].
    exists ({| method := m; args := ca |} :: more).
    rewrite Hmore, Hsent, <- app_assoc. split; [reflexivity|].
    split; [cbn; lia|]. constructor; [cbn; auto|exact Hms].
Qed.

Lemma call_summary m a s :
  let r := call' m a s in
  (consistent s → consistent r.2) ∧
  (∃ more, sent r.2 = sent s ++ more ∧ (length more ≤ 4)%nat ∧
           Forall (λ q, method q = "login" ∨ method q = m) more) ∧
  match r.1 with
  | Ok d =>
      isApiErrorResponse d = false ∧ remote (sent r.2) = Reply d ∧
      ∃ callArgs, last (sent r.2) = Some {| method := m; args := callArgs |}
  | Exn e => ∀ message status, e ≠ AuthenticationError message status
  end.
Proof.
  unfold call, ensure_token.
  cbv beta iota zeta delta [bind ret read_token].
  destruct (truthy (token s)) eqn:Ht.
  - pose proof (call_after_token m a s) as (Hc & (more & Hmore & Hlen & Hms) & Hres).
    cbn zeta in *. split; [exact Hc|]. split; [|exact Hres].
    exists more. split; [exact Hmore|]. split; [lia|exact Hms].
  - pose proof (getToken_summary s) as (Hc0 & (more0 & Hmore0 & Hlen0 & Hms0) & Hres0).
    cbn zeta in *.
    destruct (getToken' s) as [[t|e] s1]; cbn [fst snd] in *.
    + pose proof (call_after_token m a s1)
        as (Hc & (more & Hmore & Hlen & Hms) & Hres).
      cbn zeta in *. split; [tauto|]. split; [|exact Hres].
      exists (more0 ++ more). rewrite Hmore, Hmore0, <- app_assoc.
      split; [reflexivity|]. split; [rewrite length_app; lia|].
      apply Forall_app. split; [|exact Hms].
      eapply Forall_impl; [exact Hms0|]. cbn. auto.
    + destruct Hres0 as (_ & _ & Hne). split; [exact Hc0|].
      split; [|exact Hne]. exists more0. split; [exact Hmore0|].
      split; [lia|]. eapply Forall_impl; [exact Hms0|]. cbn. auto.
Qed.

Lemma getEntryListRaw_summary o s :
  let r := getEntryListRaw' o s in
  (consistent s → consistent r.2) ∧
  (∃ more, sent r.2 = sent s ++ more ∧ (length more ≤ 5)%nat ∧
           Forall (λ q, method q = "login" ∨ method q = "get_entry_list") more) ∧
  match r.1 with
  | Ok d =>
      isApiErrorResponse d = false ∧ remote (sent r.2) = Reply d ∧
      ∃ callArgs,
        last (sent r.2) = Some {| method := "get_entry_list"; args := callArgs |}
  | Exn e => ∀ message status, e ≠ AuthenticationError message status
  end.
Proof.
  unfold getEntryListRaw.
  cbv beta iota zeta delta [bind ret read_userInfo].
  set (a := entryArgs_object _).
  destruct (userInfo s) as [u|] eqn:Hu.
  - pose proof (call_summary "get_entry_list" a s)
      as (Hc & (more & Hmore & Hlen & Hms) & Hres).
    cbn zeta in *. split; [exact Hc|]. split; [|exact Hres].
    exists more. split; [exact Hmore|]. split; [lia|exact Hms].
  - pose proof (getToken_summary s)
      as (Hc0 & (more0 & Hmore0 & Hlen0 & Hms0) & Hres0).
    cbn zeta in *.
    destruct (getToken' s) as [[t|e] s1]; cbn [fst snd] in *.
    + pose proof (call_summary "get_entry_list" a s1)
        as (Hc & (more & Hmore & Hlen & Hms) & Hres).
      cbn zeta in *. split; [tauto|]. split; [|exact Hres].
      exists (more0 ++ more). rewrite Hmore, Hmore0, <- app_assoc.
      split; [reflexivity|]. split; [rewrite length_app; lia|].
      apply Forall_app. split; [|exact Hms].
      eapply Forall_impl; [exact Hms0|]. cbn. auto.
    + destruct Hres0 as (_ & _ & Hne). split; [exact Hc0|].
      split; [|exact Hne]. exists more0. split; [exact Hmore0|].
      split; [lia|]. eapply Forall_impl; [exact Hms0|]. cbn. auto.
Qed.

Lemma setEntry_summary md v s :
  let r := setEntry' md v s in
  (consistent s → consistent r.2) ∧
  (∃ more, sent r.2 = sent s ++ more ∧ (length more ≤ 4)%nat ∧
           Forall (λ q, method q = "login" ∨ method q = "set_entry") more) ∧
  match r.1 with
  | Ok _ => True
  | Exn e => ∀ message status, e ≠ AuthenticationError message status
  end.
Proof.
  unfold setEntry.
  cbv beta iota zeta delta [bind ret read_token].
  set (a := [("session", token s); _; _]).
  pose proof (call_summary "set_entry" a s) as (Hc & Hmore & Hres).
  cbn zeta in *.
  destruct (call' "set_entry" a s) as [[d|e] s1]; cbn [fst snd] in *; done.
Qed.

Lemma spread_fresh (acc a : list (string * jsval)) :
  NoDup (map fst acc ++ map fst a) → spread acc a = acc ++ a.
Proof.
  unfold spread. revert acc. induction a as [|[k x] a IH]; intros acc Hnd.
  - cbn. by rewrite app_nil_r.
  - cbn [foldl fst snd]. cbn [map fst] in Hnd.
    assert (Hk : k ∉ map fst acc).
    { apply NoDup_app in Hnd as (_ & Hdisj & _).
      intros Hin. apply (Hdisj _ Hin). left. }
    rewrite obj_set_entries_set, (entries_set_fresh _ _ _ Hk), IH.
    + by rewrite <- app_assoc.
    + rewrite map_app. cbn [map fst]. by rewrite <- app_assoc.
Qed.

Lemma call_first_request m a s :
  match ensure_token' s with
  | (Ok _, s1) =>
      truthy (token s1) = true ∧
      sent (call' m a s).2 !! length (sent s1)
        = Some {| method := m; args := spread [("session", token s1)] a |}
  | (Exn e, s1) => call' m a s = (Exn e, s1)
  end.
Proof.
  unfold call. cbv beta iota zeta delta [bind read_token].
  destruct (ensure_token' s) as [[[] |e] s1] eqn:Hens; [|reflexivity].
  assert (Ht : truthy (token s1) = true).
  { revert Hens. unfold ensure_token.
    cbv beta iota zeta delta [bind ret read_token].
    destruct (truthy (token s)) eqn:Ht; [by intros [= <-]|].
    pose proof (getToken_summary s) as (_ & _ & Hres). cbn zeta in Hres.
    destruct (getToken' s) as [[t|e] s1']; cbn [fst snd] in *; [|done].
    intros [= <-]. destruct Hres as [Htt ->]. exact Htt. }
  split; [exact Ht|].
  set (ca := spread [("session", token s1)] a). unfold try_catch.
  pose proof (checked_request_summary m ca s1) as (Hsent & _ & _ & Hr).
  cbn zeta in *.
  destruct (checked_request' m ca s1) as [[d|e] s2]; cbn [fst snd] in *.
  - rewrite Hsent. by apply list_lookup_middle.
  - assert (Hs2 : sent s2 !! length (sent s1)
                  = Some {| method := m; args := ca |}).
    { rewrite Hsent. by apply list_lookup_middle. }
    destruct e as [msg rd| |em|n dsc|msg status|]; try exact Hs2.
    destruct (status =? 401)%Z; [|exact Hs2].
    pose proof (retry_summary m ca s2) as (_ & (more & Hmore & _) & _).
    cbn zeta in Hmore. rewrite Hmore.
    apply lookup_app_l_Some. exact Hs2.
Qed.

(** X24. When the remote end answers an authenticated request with
    [Invalid Session ID], [call] logs in again and sends the same request
    once more, with the new token as [session]; what that second request
    comes back with is the result: its data, or an Error when it is an
    error response again or the transport fails. *)
Theorem call_retries_with_new_token m a s d1 t s3 :
  truthy (token s) = true →
  let ca := spread [("session", token s)] a in
  let q1 := {| method := m; args := ca |} in
  remote (sent s ++ [q1]) = Reply d1 →
  isApiErrorResponse d1 = true →
  is_invalid_session d1 = true →
  getToken' {| token := JNull; userInfo := None; sent := sent s ++ [q1] |}
    = (Ok t, s3) →
  let q2 := {| method := m; args := Js.obj_set "session" t ca |} in
  sent s3 = sent s ++ [q1; {| method := "login"; args := loginArgs' |}] ∧
  sent (call' m a s).2 = sent s3 ++ [q2] ∧
  (call' m a s).1
    = match remote (sent s3 ++ [q2]) with
      | Reply d2 =>
          if isApiErrorResponse d2 then Exn (api_error_of d2) else Ok d2
      | Failure message responseData =>
          Exn (RequestError message responseData)
      end.
Proof.
  intros Ht ca q1 Hd1 Herr Hinv Hlogin q2.
  pose proof (getToken_login
                {| token := JNull; userInfo := None; sent := sent s ++ [q1] |}
                eq_refl) as [Hsent Hres].
  cbn zeta in Hsent, Hres. rewrite Hlogin in Hsent, Hres.
  cbn [fst snd sent] in Hsent, Hres. destruct Hres as (_ & Htok & _).
  split; [by rewrite Hsent, <- app_assoc|].
  unfold call, ensure_token, checked_request, retry.
  cbv beta iota zeta delta [bind try_catch ret throw read_token
    write_token write_userInfo clearToken request].
  rewrite Ht. cbn [token userInfo sent]. fold ca. fold q1.
  rewrite Hd1, Herr, Hinv. cbn [Z.eqb Pos.eqb token userInfo sent].
  rewrite Hlogin. cbn [token userInfo sent]. rewrite Htok. fold q2.
  destruct (remote (sent s3 ++ [q2])) as [d2|message responseData];
    [|by split].
  by destruct (isApiErrorResponse d2).
Qed.

(** X18. [getToken] with a token in hand returns it and sends nothing.
    Without one it sends exactly one [login] request; it then either
    returns the [id] of the response, now the token, with the user
    information set, or throws with the token and the user information
    both cleared. *)
Theorem getToken_contract s :
  let r := getToken' s in
  (truthy (token s) = true → r = (Ok (token s), s)) ∧
  (truthy (token s) = false →
   sent r.2 = sent s ++ [ {| method := "login"; args := loginArgs' |} ] ∧
   match r.1 with
   | Ok t =>
       truthy t = true ∧ token r.2 = t ∧ userInfo r.2 ≠ None ∧
       ∃ response, remote (sent r.2) = Reply response ∧ t = get response "id"
   | Exn e => token r.2 = JNull ∧ userInfo r.2 = None
   end).
Proof.
  split; [apply getToken_cached|].
  intros Ht. pose proof (getToken_login s Ht) as [Hsent Hres].
  cbn zeta in *. split; [exact Hsent|].
  destruct (getToken' s) as [[t|e] s1]; cbn [fst snd] in *; [exact Hres|].
  by destruct Hres as (? & ? & _).
Qed.

(** X19. The token and the user information are set together or not at
    all: a new service has neither, and [getToken], [call],
    [getEntryListRaw], [setEntry] and [clearToken] keep it so, however
    they end; [getUserInfo] changes nothing. *)
Theorem session_stays_consistent s :
  consistent new_service ∧
  (consistent s →
   consistent (getToken' s).2 ∧
   (∀ m a, consistent (call' m a s).2) ∧
   (∀ o, consistent (getEntryListRaw' o s).2) ∧
   (∀ md v, consistent (setEntry' md v s).2) ∧
   consistent (clearToken s).2 ∧
   (getUserInfo s).2 = s).
Proof.
  split; [by left|]. intros Hs.
  split; [by apply getToken_summary|].
  split; [intros m a; by apply call_summary|].
  split; [intros o; by apply getEntryListRaw_summary|].
  split; [intros md v; by apply setEntry_summary|].
  split; [by left|].
  unfold getUserInfo. run. by destruct (userInfo s).
Qed.

(** X20. No [SuiteCrmAuthenticationError] leaves the service: the one
    [call] throws for [Invalid Session ID] is caught by [call] itself,
    and what follows throws other Errors only. *)
Theorem authentication_error_never_escapes s message status :
  (getToken config_username config_password config_applicationName
     md5Hash trim remote s).1
    ≠ Exn (AuthenticationError message status) ∧
  (∀ m a,
     (call config_username config_password config_applicationName
        md5Hash trim remote m a s).1
       ≠ Exn (AuthenticationError message status)) ∧
  (∀ o,
     (getEntryListRaw config_username config_password config_applicationName
        md5Hash trim remote o s).1
       ≠ Exn (AuthenticationError message status)) ∧
  (∀ md v,
     (setEntry config_username config_password config_applicationName
        md5Hash trim remote md v s).1
       ≠ Exn (AuthenticationError message status)).
Proof.
  split.
  { pose proof (getToken_summary s) as (_ & _ & Hres). cbn zeta in Hres.
    destruct ((getToken' s).1) as [t|e]; [done|].
    destruct Hres as (_ & _ & Hne). intros [= ->]. by eapply Hne. }
  split.
  { intros m a. pose proof (call_summary m a s) as (_ & _ & Hres).
    cbn zeta in Hres. destruct ((call' m a s).1) as [d|e]; [done|].
    intros [= ->]. by eapply Hres. }
  split.
  { intros o. pose proof (getEntryListRaw_summary o s) as (_ & _ & Hres).
    cbn zeta in Hres. destruct ((getEntryListRaw' o s).1) as [d|e]; [done|].
    intros [= ->]. by eapply Hres. }
  intros md v. pose proof (setEntry_summary md v s) as (_ & _ & Hres).
  cbn zeta in Hres. destruct ((setEntry' md v s).1) as [d|e]; [done|].
  intros [= ->]. by eapply Hres.
Qed.

(** X21. One [call] sends at most four requests, each a [login] or the
    method asked for, after those already sent. *)
Theorem call_sends_at_most_four m a s :
  ∃ more,
    sent (call config_username config_password config_applicationName
            md5Hash trim remote m a s).2 = sent s ++ more ∧
    (length more ≤ 4)%nat ∧
    Forall (λ q, method q = "login" ∨ method q = m) more.
Proof. apply call_summary. Qed.

(** X22. What [call] returns is what the remote end answered to the last
    request sent, a request for the method asked for, and it is not an
    error response. *)
Theorem call_returns_last_reply m a s d :
  (call' m a s).1 = Ok d →
  isApiErrorResponse d = false ∧
  remote (sent (call' m a s).2) = Reply d ∧
  ∃ callArgs,
    last (sent (call' m a s).2) = Some {| method := m; args := callArgs |}.
Proof.
  intros Hd. pose proof (call_summary m a s) as (_ & _ & Hres).
  cbn zeta in Hres. by rewrite Hd in Hres.
Qed.

(** X23. For arguments with distinct names, none of them [session], the
    first request [call] sends for the method carries the token in hand,
    or the one just obtained by [login], as [session] in first place,
    then the arguments as given; when no token can be obtained nothing
    more is sent and the login's Error is thrown. *)
Theorem call_sends_current_token m a s :
  NoDup (map fst a) →
  "session" ∉ map fst a →
  match ensure_token' s with
  | (Ok _, s1) =>
      truthy (token s1) = true ∧
      sent (call' m a s).2 !! length (sent s1)
        = Some {| method := m; args := ("session", token s1) :: a |}
  | (Exn e, s1) => call' m a s = (Exn e, s1)
  end.
Proof.
  intros Hnd Hno. pose proof (call_first_request m a s) as Hfirst.
  destruct (ensure_token' s) as [[[]|e] s1]; [|exact Hfirst].
  rewrite spread_fresh in Hfirst; [exact Hfirst|].
  cbn [map fst app]. by apply NoDup_cons.
Qed.

(** X25. [setEntry] reads [this.token] for the [session] argument when
    it builds the argument object, before [call] makes sure there is a
    token, and that argument overrides the one [call] puts in front: the
    first [set_entry] request carries the token as it was when
    [setEntry] was called, [null] on a service that has not logged in
    yet, even though the login made in between has succeeded. *)
Theorem setEntry_session_read_before_login md v s :
  match ensure_token' s with
  | (Ok _, s1) =>
      truthy (token s1) = true ∧
      sent (setEntry' md v s).2 !! length (sent s1)
        = Some {| method := "set_entry";
                  args :=
                    [ ("session", token s);
                      ("module_name", JString (Domain.name md));
                      ("name_value_list",
                       name_value_object (setEntry_name_value_list v)) ] |}
  | (Exn e, s1) => setEntry' md v s = (Exn e, s1)
  end.
Proof.
  unfold setEntry. cbv beta iota zeta delta [bind ret read_token].
  set (a := [("session", token s); _; _]).
  pose proof (call_first_request "set_entry" a s) as Hfirst.
  destruct (ensure_token' s) as [[[]|e] s1].
  - destruct Hfirst as [Ht Hfirst]. split; [exact Ht|].
    destruct (call' "set_entry" a s) as [[d|e] s2]; exact Hfirst.
  - by rewrite Hfirst.
Qed.

End SessionFacts.

Section SessionWitnesses.
Import Session SessionSamples.

Local Abbreviation sample_call remote :=
  (call "admin" "secret" "app" same same remote).

Lemma call_returns_last_reply_witness :
  (sample_call (scripted [ Reply (login_response "t1");
                           Reply empty_list_response ])
     "get_entry_list" [("module_name", JString "Leads")] new_service).1
    = Ok empty_list_response ∧
  isApiErrorResponse empty_list_response = false.
Proof.
  split; [reflexivity|].
  apply (call_returns_last_reply "admin" "secret" "app" same same
           (scripted [ Reply (login_response "t1");
                       Reply empty_list_response ])
           "get_entry_list" [("module_name", JString "Leads")] new_service
           empty_list_response).
  reflexivity.
Defined.

Lemma call_sends_current_token_witness :
  sent (sample_call (scripted [ Reply (login_response "t1");
                                Reply empty_list_response ])
          "get_entry_list" [("module_name", JString "Leads")] new_service).2
    !! 1
  = Some {| method := "get_entry_list";
            args := [ ("session", JString "t1");
                      ("module_name", JString "Leads") ] |}.
Proof.
  pose proof (call_sends_current_token "admin" "secret" "app" same same
                (scripted [ Reply (login_response "t1");
                            Reply empty_list_response ])
                "get_entry_list" [("module_name", JString "Leads")]
                new_service) as H.
  apply H.
  - repeat constructor. intros Hin. by apply elem_of_nil in Hin.
  - cbn. intros [[=]|Hin]%elem_of_cons. by apply elem_of_nil in Hin.
Defined.

Lemma call_retries_with_new_token_witness :
  (sample_call (scripted [ Reply invalid_session_response;
                           Reply (login_response "t2");
                           Reply empty_list_response ])
     "get_entry_list" [("module_name", JString "Leads")] stale_service).1
    = Ok empty_list_response ∧
  map (λ q, (method q, Js.obj_get "session" (args q)))
    (sent (sample_call (scripted [ Reply invalid_session_response;
                                   Reply (login_response "t2");
                                   Reply empty_list_response ])
             "get_entry_list" [("module_name", JString "Leads")]
             stale_service).2)
  = [ ("get_entry_list", Some (JString "old"));
      ("login", None);
      ("get_entry_list", Some (JString "t2")) ].
Proof.
  destruct (call_retries_with_new_token "admin" "secret" "app" same same
              (scripted [ Reply invalid_session_response;
                          Reply (login_response "t2");
                          Reply empty_list_response ])
              "get_entry_list" [("module_name", JString "Leads")]
              stale_service invalid_session_response (JString "t2")
              (getToken "admin" "secret" "app" same same
                 (scripted [ Reply invalid_session_response;
                             Reply (login_response "t2");
                             Reply empty_list_response ])
                 {| token := JNull; userInfo := None;
                    sent := [ {| method := "get_entry_list";
                                 args := [ ("session", JString "old");
                                           ("module_name", JString "Leads") ]
                              |} ] |}).2
              eq_refl eq_refl eq_refl eq_refl eq_refl)
    as (_ & Hsent & Hres).
  split; [etrans; [exact Hres|reflexivity]|].
  rewrite Hsent. reflexivity.
Defined.

(** A service that has not logged in sets an entry: the first
    [set_entry] request goes out without a session, the remote end
    refuses it, and the retry carries the token of the second login. *)
Example setEntry_on_new_service :
  map (λ q, (method q, Js.obj_get "session" (args q)))
    (sent (setEntry "admin" "secret" "app" same same
             (scripted [ Reply (login_response "t1");
                         Reply invalid_session_response;
                         Reply (login_response "t2");
                         Reply (JObject CtorObject [("id", JString "9")]) ])
             leads.2
             (JObject CtorObject [("firstName", JString "A")])
             new_service).2)
  = [ ("login", None);
      ("set_entry", Some JNull);
      ("login", None);
      ("set_entry", Some (JString "t2")) ].
Proof. reflexivity. Qed.

End SessionWitnesses.

(** ** The base URL *)

Section BaseURL.
Import Config.

Lemma endsWith_slash_app_slash (u : string) :
  endsWith_slash (u ++ "/")%string = true.
Proof.
  induction u as [|c u IH]; [reflexivity|].
  change (String c u ++ "/")%string with (String c (u ++ "/")%string).
  cbn [endsWith_slash]. destruct u as [|d u]; [reflexivity|exact IH].
Qed.

End BaseURL.

(** X26. The base URL the constructor hands to [axios.create] always ends
    with a slash: one is appended unless the configured URL already ends
    with one, so a URL that does is kept as it is and doing it twice
    changes nothing. *)
Theorem axios_baseURL_ends_with_slash (u : string) :
  Config.endsWith_slash (Config.axios_baseURL u) = true ∧
  (Config.endsWith_slash u = true → Config.axios_baseURL u = u) ∧
  (Config.endsWith_slash u = false →
   Config.axios_baseURL u = (u ++ "/")%string) ∧
  Config.axios_baseURL (Config.axios_baseURL u) = Config.axios_baseURL u.
Proof.
  assert (Hends : Config.endsWith_slash (Config.axios_baseURL u) = true).
  { unfold Config.axios_baseURL.
    destruct (Config.endsWith_slash u) eqn:Hu; [exact Hu|].
    apply endsWith_slash_app_slash. }
  split; [exact Hends|].
  split; [intros Hu; unfold Config.axios_baseURL; by rewrite Hu|].
  split; [intros Hu; unfold Config.axios_baseURL; by rewrite Hu|].
  unfold Config.axios_baseURL at 1. by rewrite Hends.
Qed.

(** ** The request of a list query *)

Section ListRequest.
Import Session.
Context (config_username config_password config_applicationName : string).
Context (md5Hash trim : string → string).
Context (remote : list request_record → reply).

(** X27. With a token in hand, [getEntryListRaw] first sends a
    [get_entry_list] request whose arguments are, in this order, the
    token as [session] and then the eight members of [entryArgs] as
    written: [module_name], [query], [order_by], [offset],
    [select_fields], [link_name_to_fields_array], [max_results],
    [deleted]. *)
Theorem getEntryListRaw_request_shape (options : GetEntryListOptions.t) s :
  truthy (token s) = true →
  let r := getEntryListRaw config_username config_password
             config_applicationName md5Hash trim remote options s in
  ∃ q,
    sent r.2 !! length (sent s) = Some q ∧
    method q = "get_entry_list" ∧
    args q = ("session", token s) :: entryArgs_object (entryArgs options) ∧
    map fst (args q)
      = [ "session"; "module_name"; "query"; "order_by"; "offset";
          "select_fields"; "link_name_to_fields_array"; "max_results";
          "deleted" ].
Proof.
  intros Ht r.
  pose proof (call_first_request config_username config_password
                config_applicationName md5Hash trim remote
                "get_entry_list" (entryArgs_object (entryArgs options)) s)
    as Hfirst.
  assert (Hens : ensure_token config_username config_password
                   config_applicationName md5Hash trim remote s
                 = (Ok tt, s)).
  { unfold ensure_token, bind, read_token, ret. by rewrite Ht. }
  rewrite Hens in Hfirst. destruct Hfirst as [_ Hfirst].
  assert (Hr : r = call config_username config_password
                     config_applicationName md5Hash trim remote
                     "get_entry_list" (entryArgs_object (entryArgs options)) s).
  { unfold r, getEntryListRaw, bind, read_userInfo, ret.
    destruct (userInfo s); [reflexivity|].
    by rewrite (getToken_cached _ _ _ _ _ remote s Ht). }
  rewrite Hr. eexists. split; [exact Hfirst|].
  split; [reflexivity|]. split; [|reflexivity].
  cbn [args]. apply spread_fresh. cbn [entryArgs_object map fst app].
  refine (bool_decide_unpack _ _). by vm_compute.
Qed.

End ListRequest.

Lemma getEntryListRaw_request_shape_witness :
  ∃ q,
    Session.sent (Session.getEntryListRaw "admin" "secret" "app"
            SessionSamples.same SessionSamples.same
            (SessionSamples.scripted
               [ Session.Reply SessionSamples.empty_list_response ])
            options_minimal SessionSamples.stale_service).2 !! 0
      = Some q ∧
    Session.args q
      = [ ("session", JString "old");
          ("module_name", JString "Leads");
          ("query", JString "");
          ("order_by", JString "");
          ("offset", JNumber 0);
          ("select_fields", JArray []);
          ("link_name_to_fields_array", JArray []);
          ("max_results", JNumber 20);
          ("deleted", JNumber 0) ].
Proof.
  destruct (getEntryListRaw_request_shape "admin" "secret" "app"
              SessionSamples.same SessionSamples.same
              (SessionSamples.scripted
                 [ Session.Reply SessionSamples.empty_list_response ])
              options_minimal SessionSamples.stale_service eq_refl)
    as (q & Hq & _ & Hargs & _).
  exists q. split; [exact Hq|]. by rewrite Hargs.
Defined.

(** ** Selection and flattening *)



